(** * go-content-encoding: the Content-Encoding decoding middleware

    A shallow embedding of [Decode] and its helpers (package
    [contentencoding]) and the properties of its dispatch loop, its header
    tokenizer and its Accept-Encoding negotiation. *)

From Stdlib Require Import Ascii String List Bool Lia.
From stdpp Require Import base decidable option list strings gmap sorting.

Local Open Scope string_scope.
Local Open Scope list_scope.

(** ** The parts of Go's [strings] and [sort] packages the code uses *)

(** [strings.NewReplacer(old, new).Replace(s)] for a one-byte [old]: every
    byte equal to [old] is replaced by [new], the other bytes are kept. *)
Fixpoint Replacer_Replace (old : ascii) (new : string) (s : string) : string :=
  match s with
  | EmptyString => EmptyString
  | String c s' =>
      if Ascii.eqb c old then new +:+ Replacer_Replace old new s'
      else String c (Replacer_Replace old new s')
  end.

(** [strings.Split(s, sep)] for a one-byte separator: the substrings between
    the separators, in order; [n] separators give [n + 1] substrings, so the
    empty string gives one empty substring. *)
Fixpoint strings_Split (s : string) (sep : ascii) : list string :=
  match s with
  | EmptyString => [EmptyString]
  | String c s' =>
      if Ascii.eqb c sep then EmptyString :: strings_Split s' sep
      else match strings_Split s' sep with
           | t :: ts => String c t :: ts
           | [] => [String c EmptyString]
           end
  end.

(** [strings.Join(ss, sep)]. *)
Definition strings_Join (ss : list string) (sep : string) : string :=
  String.concat sep ss.

(** [sort.Strings]: ascending in Go's string order, which compares byte by
    byte, as [String.le] does. *)
Definition sort_Strings (l : list string) : list string :=
  merge_sort String.le l.

(** ** Header helpers of the package *)

(** [var noSpace = strings.NewReplacer(" ", "")] *)
Definition noSpace_Replace (s : string) : string :=
  Replacer_Replace " "%char "" s.

Definition splitEncodingHeader (raw : string) : list string :=
  if String.eqb raw "" then []
  else strings_Split (noSpace_Replace raw) ","%char.

Definition joinWithCommaSpace (ss : list string) : string :=
  strings_Join ss ", ".

(** [strset.New(current...)] merged with [strset.New(adds...)], listed,
    sorted and joined.  A [strset.Set] is a Go map, and [set.List()] ranges
    over it in an order the runtime picks at each call: [List] stands for
    that order. *)
Definition mergeAcceptEncoding (List : gset string -> list string)
    (raw : string) (adds : list string) : string :=
  let current := splitEncodingHeader raw in
  if Nat.eqb (length current) 0 then joinWithCommaSpace adds
  else
    let set : gset string := list_to_set current ∪ list_to_set adds in
    let list := List set in
    joinWithCommaSpace (sort_Strings list).

(** The tokenizer as the specification words it: all white space goes, not
    only the space byte. *)
Definition strip_whitespace (s : string) : string :=
  string_of_list_ascii (filter (fun c => Ascii.is_space c = false) (list_ascii_of_string s)).

Definition HeaderTokenizer_spec (raw : string) : list string :=
  if String.eqb raw "" then [] else strings_Split (strip_whitespace raw) ","%char.

(** What the merge path writes, with the set listed in stdpp's order. *)
Definition sorted_union (current adds : list string) : list string :=
  sort_Strings (elements (list_to_set current ∪ list_to_set adds : gset string)).

(** ** What the package takes from outside

    The codec constructors ([brotli.NewReader], [gzip.NewReader],
    [zstd.NewReader]), Go's [error] values, the request body
    ([io.ReadCloser]) with [ioutil.ReadAll], and the order in which the
    runtime lists a [strset.Set].  [gzip.NewReader] and [zstd.NewReader]
    return a reader or an error; [brotli.NewReader] returns a reader and
    nothing else.  [ioutil.NopCloser] does not change what a reader yields
    and is left out. *)
Class Env := {
  error : Type;
  error_Error : error -> string;
  ReadCloser : Type;
  DOption : Type;
  brotli_NewReader : ReadCloser -> ReadCloser;
  gzip_NewReader : ReadCloser -> error + ReadCloser;
  zstd_NewReader : ReadCloser -> list DOption -> error + ReadCloser;
  ioutil_ReadAll : ReadCloser -> error + string;
  strset_List : gset string -> list string;
}.

(** ** [net/http] values *)

(** [http.Header] is [map[string][]string].  The two keys the package uses,
    [Content-Encoding] and [Accept-Encoding], are in canonical form already,
    so [Get] and [Set] use them as they are. *)
Definition Header_Get (h : gmap string (list string)) (key : string) : string :=
  match h !! key with
  | Some (v :: _) => v
  | _ => ""
  end.

Definition Header_Set (h : gmap string (list string)) (key value : string)
    : gmap string (list string) :=
  <[key := [value]]> h.

Definition MethodGet : string := "GET".
Definition MethodHead : string := "HEAD".
Definition StatusBadRequest : nat := 400.

Section Model.
Context {E : Env}.

Record Request := mkRequest {
  Method : string;
  Header : gmap string (list string);
  Body : ReadCloser;
}.

(** A response writer as a handler sees it: its header map, the status code
    once [WriteHeader] ran, and the bytes written. *)
Record ResponseWriter := mkResponseWriter {
  w_Header : gmap string (list string);
  w_Code : option nat;
  w_Written : string;
}.

(** [w] and [r] as the handlers share them: the same writer and the same
    [*http.Request] go to every decoder, to the error handler and to the
    next handler, so what one of them changes the later ones see. *)
Record St := mkSt {
  w : ResponseWriter;
  r : Request;
}.

Inductive Codec := Brotli | Gzip | Zstd.

(** What the middleware does to its collaborators, in order. *)
Inductive Event :=
| CallNext (s : St)
| CallErrHandler (s : St) (err : error)
| CallDecoder (i : nat) (s : St)
| CallNewReader (c : Codec) (b : ReadCloser)
| GetRequestHeader (key : string)
| GetResponseHeader (key : string)
| SetResponseHeader (key value : string)
| PanicNilFunc.

Record World := mkWorld {
  st : St;
  log : list Event;
}.

(** A small state monad over [World]. *)
Definition M (A : Type) : Type := World -> A * World.
Definition ret {A} (a : A) : M A := fun σ => (a, σ).
Definition bind {A B} (m : M A) (k : A -> M B) : M B :=
  fun σ => let (a, σ') := m σ in k a σ'.
Definition emit (ev : Event) : M unit :=
  fun σ => (tt, mkWorld (st σ) (log σ ++ [ev])).
Definition get_st : M St := fun σ => (st σ, σ).
Definition put_st (s : St) : M unit := fun σ => (tt, mkWorld s (log σ)).

Definition set_Body (b : ReadCloser) (s : St) : St :=
  mkSt (w s) (mkRequest (Method (r s)) (Header (r s)) b).
Definition set_w_Header (h : gmap string (list string)) (s : St) : St :=
  mkSt (mkResponseWriter h (w_Code (w s)) (w_Written (w s))) (r s).

End Model.

Declare Scope go_scope.
Delimit Scope go_scope with go.
Notation "x <- c ;; k" := (bind c (fun x => k))
  (at level 100, c at next level, right associativity) : go_scope.
Notation "c ;;; k" := (bind c (fun _ => k))
  (at level 100, right associativity) : go_scope.

Section Middleware.
Context {E : Env}.
Local Open Scope go_scope.

(** [type ErrorHandler func(w http.ResponseWriter, r *http.Request, err error)] *)
Definition ErrorHandler : Type := St -> error -> St.

(** [http.Handler]: [ServeHTTP(w, r)]. *)
Definition Handler : Type := St -> St.

(** [type Decoder struct { Encoding string; Handler func(w, r) error }];
    a [nil] error is [None]. *)
Record Decoder := mkDecoder {
  Encoding : string;
  Decoder_Handler : St -> St * option error;
}.

(** [type config struct]; a func field may be [nil]. *)
Record config := mkConfig {
  errHandler : option ErrorHandler;
  decoders : list Decoder;
  dopts : list DOption;
}.

Definition Option : Type := config -> config.

(** [http.Error(w, msg, code)]: two headers, the status, the message and a
    newline. *)
Definition http_Error (msg : string) (code : nat) (s : St) : St :=
  let h := Header_Set (Header_Set (w_Header (w s)) "Content-Type" "text/plain; charset=utf-8")
             "X-Content-Type-Options" "nosniff" in
  mkSt (mkResponseWriter h
          (match w_Code (w s) with Some c => Some c | None => Some code end)
          (w_Written (w s) +:+ msg +:+ String "010"%char ""))
       (r s).

Definition DefaultErrorHandler : ErrorHandler :=
  fun s err => http_Error (error_Error err) StatusBadRequest s.

Definition WithErrorHandler (eh : option ErrorHandler) : Option :=
  let eh := match eh with None => DefaultErrorHandler | Some h => h end in
  fun cfg => mkConfig (Some eh) (decoders cfg) (dopts cfg).

Definition WithDOptions (ds : list DOption) : Option :=
  fun cfg => mkConfig (errHandler cfg) (decoders cfg) ds.

Definition WithDecoder (ds : list Decoder) : Option :=
  fun cfg => mkConfig (errHandler cfg) ds (dopts cfg).

Definition defaults : list Option := [WithErrorHandler None].

(** [new(config)]: every field at its zero value. *)
Definition new_config : config := mkConfig None [] [].

(** *** Calls to the collaborators *)

(** [next.ServeHTTP(w, r)] *)
Definition call_next (next : Handler) : M unit :=
  s <- get_st ;; emit (CallNext s) ;;; put_st (next s).

(** [cfg.errHandler(w, r, err)]; calling a [nil] func panics. *)
Definition call_errHandler (cfg : config) (err : error) : M unit :=
  match errHandler cfg with
  | Some eh => s <- get_st ;; emit (CallErrHandler s err) ;;; put_st (eh s err)
  | None => emit PanicNilFunc
  end.

(** [decoder.Handler(w, r)] of the decoder at index [i] of [cfg.decoders]. *)
Definition call_Handler (i : nat) (decoder : Decoder) : M (option error) :=
  s <- get_st ;;
  emit (CallDecoder i s) ;;;
  let (s', err) := Decoder_Handler decoder s in
  put_st s' ;;; ret err.

(** [r.Header.Get(key)], [w.Header().Get(key)], [w.Header().Set(key, value)] *)
Definition request_Header_Get (key : string) : M string :=
  s <- get_st ;; emit (GetRequestHeader key) ;;; ret (Header_Get (Header (r s)) key).
Definition response_Header_Get (key : string) : M string :=
  s <- get_st ;; emit (GetResponseHeader key) ;;; ret (Header_Get (w_Header (w s)) key).
Definition response_Header_Set (key value : string) : M unit :=
  s <- get_st ;;
  emit (SetResponseHeader key value) ;;;
  put_st (set_w_Header (Header_Set (w_Header (w s)) key value) s).

(** *** The built-in decoders *)

Definition decompressBrotli : M unit :=
  s <- get_st ;;
  emit (CallNewReader Brotli (Body (r s))) ;;;
  put_st (set_Body (brotli_NewReader (Body (r s))) s).

Definition decompressGzip : M (option error) :=
  s <- get_st ;;
  emit (CallNewReader Gzip (Body (r s))) ;;;
  match gzip_NewReader (Body (r s)) with
  | inl err => ret (Some err)
  | inr gr => put_st (set_Body gr s) ;;; ret None
  end.

Definition decompressZstd (opts : list DOption) : M (option error) :=
  s <- get_st ;;
  emit (CallNewReader Zstd (Body (r s))) ;;;
  match zstd_NewReader (Body (r s)) opts with
  | inl err => ret (Some err)
  | inr zr => put_st (set_Body zr s) ;;; ret None
  end.

(** *** The dispatch loop of [Decode] *)

(** How a piece of the handler's body ends: it falls through to the next
    statement, or it ran [return]. *)
Inductive Flow := Continue | Return.

(** [for _, decoder := range cfg.decoders { if v == decoder.Encoding { ... } }]
    from the decoder at index [i] on. *)
Fixpoint rangeDecoders (cfg : config) (v : string) (i : nat) (ds : list Decoder)
    : M Flow :=
  match ds with
  | [] => ret Continue
  | decoder :: rest =>
      if String.eqb v (Encoding decoder) then
        err <- call_Handler i decoder ;;
        match err with
        | Some e => call_errHandler cfg e ;;; ret Return
        | None => rangeDecoders cfg v (S i) rest
        end
      else rangeDecoders cfg v (S i) rest
  end.

(** [switch v { ... }]: one iteration of the loop over the tokens. *)
Definition decodeToken (cfg : config) (v : string) : M Flow :=
  if String.eqb v "br" then
    decompressBrotli ;;; ret Continue
  else if String.eqb v "gzip" || String.eqb v "x-gzip" then
    err <- decompressGzip ;;
    match err with
    | Some e => call_errHandler cfg e ;;; ret Return
    | None => ret Continue
    end
  else if String.eqb v "zstd" then
    err <- decompressZstd (dopts cfg) ;;
    match err with
    | Some e => call_errHandler cfg e ;;; ret Return
    | None => ret Continue
    end
  else if String.eqb v "" || String.eqb v "identity" then
    ret Continue
  else
    rangeDecoders cfg v 0 (decoders cfg).

(** [for i := len(values) - 1; i >= 0; i-- { v := values[i]; ... }] with
    [n] iterations left, that is [i = n - 1]. *)
Fixpoint tokenLoop (cfg : config) (values : list string) (n : nat) : M Flow :=
  match n with
  | O => ret Continue
  | S i =>
      f <- decodeToken cfg (nth i values "") ;;
      match f with
      | Return => ret Return
      | Continue => tokenLoop cfg values i
      end
  end.

(** The handler [Decode] returns, for the configuration [cfg] its options
    built. *)
Definition Decode_handler (cfg : config) (next : Handler) : M unit :=
  let encodings := ["br"; "gzip"; "zstd"] ++ map Encoding (decoders cfg) in
  let acceptEncoding := joinWithCommaSpace encodings in
  s <- get_st ;;
  if String.eqb (Method (r s)) MethodGet || String.eqb (Method (r s)) MethodHead then
    call_next next
  else
    raw <- request_Header_Get "Content-Encoding" ;;
    let values := splitEncodingHeader raw in
    f <- tokenLoop cfg values (length values) ;;
    match f with
    | Return => ret tt
    | Continue =>
        current <- response_Header_Get "Accept-Encoding" ;;
        (if String.eqb current "" then
           response_Header_Set "Accept-Encoding" acceptEncoding
         else
           response_Header_Set "Accept-Encoding"
             (mergeAcceptEncoding strset_List current encodings)) ;;;
        call_next next
    end.

(** [cfg := new(config); for _, opt := range append(defaults(), opts...) { opt(cfg) }] *)
Definition Decode_config (opts : list Option) : config :=
  fold_left (fun cfg opt => opt cfg) (defaults ++ opts) new_config.

Definition Decode (opts : list Option) (next : Handler) : M unit :=
  Decode_handler (Decode_config opts) next.

(** One request served from a fresh log. *)
Definition serve (h : M unit) (s : St) : World := snd (h (mkWorld s [])).

End Middleware.

(** ** A small instance to run the model on

    Toy codecs: a compressed stream is the payload behind a one-letter magic
    byte ([B], [G], [Z]).  A reader is what reading it to the end gives: an
    error or the bytes.  The toy gzip and zstd constructors check the magic
    byte at once, the toy brotli reader only when it is read. *)
Definition toy_brotli_NewReader (b : string + string) : string + string :=
  match b with
  | inl e => inl e
  | inr (String "B" rest) => inr rest
  | inr _ => inl "brotli: corrupted input"
  end.

Definition toy_gzip_NewReader (b : string + string) : string + (string + string) :=
  match b with
  | inl e => inl e
  | inr (String "G" rest) => inr (inr rest)
  | inr _ => inl "gzip: invalid header"
  end.

Definition toy_zstd_NewReader (b : string + string) (opts : list unit)
    : string + (string + string) :=
  match b with
  | inl e => inl e
  | inr (String "Z" rest) => inr (inr rest)
  | inr _ => inl "zstd: invalid input"
  end.

Definition toy_env (List : gset string -> list string) : Env := {|
  error := string;
  error_Error := fun e => e;
  ReadCloser := string + string;
  DOption := unit;
  brotli_NewReader := toy_brotli_NewReader;
  gzip_NewReader := toy_gzip_NewReader;
  zstd_NewReader := toy_zstd_NewReader;
  ioutil_ReadAll := fun b => b;
  strset_List := List;
|}.

Definition toy : Env := toy_env elements.

Definition toy_request (method : string) (contentEncoding : list string)
    (body : string) : @Request toy :=
  @mkRequest toy method
    (match contentEncoding with
     | [] => ∅
     | vs => {[ "Content-Encoding" := vs ]}
     end)
    (inr body).

Definition toy_writer (hdr : gmap string (list string)) : ResponseWriter :=
  mkResponseWriter hdr None "".

(** A next handler that answers with the body it read. *)
Definition toy_next : @Handler toy :=
  fun s =>
    @mkSt toy (mkResponseWriter (w_Header (w s)) (Some 200)
            (match Body (r s) with inr b => b | inl e => e end))
         (r s).

(** The custom decoder of the package's tests: it appends a suffix. *)
Definition toy_suffix_decoder (encoding suffix : string) : @Decoder toy :=
  @mkDecoder toy encoding
    (fun s => match Body (r s) with
              | inr b => (@set_Body toy (inr (b +:+ suffix)) s, None)
              | inl e => (s, Some e)
              end).

(** A custom decoder that undoes an encoder: it takes the magic byte off
    the front, and fails when it is not there. *)
Definition toy_strip_decoder (encoding : string) (magic : ascii) : @Decoder toy :=
  @mkDecoder toy encoding
    (fun s => match Body (r s) with
              | inr (String c rest) =>
                  if Ascii.eqb c magic then (@set_Body toy (inr rest) s, None)
                  else (s, Some "custom: bad magic")
              | inr EmptyString => (s, Some "custom: bad magic")
              | inl e => (s, Some e)
              end).

(** The error handler of the package's tests: status 999. *)
Definition toy_errHandler_999 : @ErrorHandler toy :=
  fun s _ => @mkSt toy (mkResponseWriter (w_Header (w s)) (Some 999) (w_Written (w s))) (r s).

(** The toy encoders: the magic byte in front. *)
Definition toy_enc (c : Codec) (p : string) : string :=
  match c with
  | Brotli => String "B" p
  | Gzip => String "G" p
  | Zstd => String "Z" p
  end.

Definition toy_st (hdr : gmap string (list string)) (method : string)
    (contentEncoding : list string) (body : string) : @St toy :=
  @mkSt toy (toy_writer hdr) (toy_request method contentEncoding body).

Definition toy_run (opts : list (@Option toy)) (wr : ResponseWriter)
    (rq : @Request toy) : @World toy :=
  serve (Decode opts toy_next) (@mkSt toy wr rq).

(** ** Runs of the dispatch loop, as a step relation

    The tokens the [switch] handles itself; a custom decoder is reached only
    through its [default] branch. *)
Definition is_builtin (v : string) : bool :=
  String.eqb v "br" || (String.eqb v "gzip" || String.eqb v "x-gzip")
  || String.eqb v "zstd" || (String.eqb v "" || String.eqb v "identity").

Section Steps.
Context {E : Env}.

(** [decode_step cfg s ev s' res]: from [s], the decode step logged as [ev]
    leaves [s'] and returns [res] ([None] for a [nil] error). *)
Inductive decode_step (cfg : config) : St -> Event -> St -> option error -> Prop :=
| step_brotli s :
    decode_step cfg s (CallNewReader Brotli (Body (r s)))
      (set_Body (brotli_NewReader (Body (r s))) s) None
| step_gzip_ok s gr :
    gzip_NewReader (Body (r s)) = inr gr ->
    decode_step cfg s (CallNewReader Gzip (Body (r s))) (set_Body gr s) None
| step_gzip_err s e :
    gzip_NewReader (Body (r s)) = inl e ->
    decode_step cfg s (CallNewReader Gzip (Body (r s))) s (Some e)
| step_zstd_ok s zr :
    zstd_NewReader (Body (r s)) (dopts cfg) = inr zr ->
    decode_step cfg s (CallNewReader Zstd (Body (r s))) (set_Body zr s) None
| step_zstd_err s e :
    zstd_NewReader (Body (r s)) (dopts cfg) = inl e ->
    decode_step cfg s (CallNewReader Zstd (Body (r s))) s (Some e)
| step_custom s i d :
    decoders cfg !! i = Some d ->
    is_builtin (Encoding d) = false ->
    decode_step cfg s (CallDecoder i s)
      (fst (Decoder_Handler d s)) (snd (Decoder_Handler d s)).

(** A run of decode steps that all returned [nil]. *)
Inductive decode_steps (cfg : config) : St -> list Event -> St -> Prop :=
| steps_nil s : decode_steps cfg s [] s
| steps_cons s ev s' evs s'' :
    decode_step cfg s ev s' None ->
    decode_steps cfg s' evs s'' ->
    decode_steps cfg s (ev :: evs) s''.

(** [cfg.errHandler(w, r, err)] from [s1]: the event and the state after. *)
Definition fail_call (cfg : config) (s1 : St) (e : error) : Event * St :=
  match errHandler cfg with
  | Some eh => (CallErrHandler s1 e, eh s1 e)
  | None => (PanicNilFunc, s1)
  end.

(** How a piece of the loop ends from [σ]: every step returned [nil] and
    the loop goes on, or a step failed, the error handler ran and the
    handler returned. *)
Inductive loop_outcome (cfg : config) (σ : World) : Flow * World -> Prop :=
| outcome_Continue evs s' :
    decode_steps cfg (st σ) evs s' ->
    loop_outcome cfg σ (Continue, mkWorld s' (log σ ++ evs))
| outcome_Return pre s' ev s1 e :
    decode_steps cfg (st σ) pre s' ->
    decode_step cfg s' ev s1 (Some e) ->
    loop_outcome cfg σ
      (Return, mkWorld (snd (fail_call cfg s1 e))
                 (log σ ++ pre ++ [ev; fst (fail_call cfg s1 e)])).

(** The tokens one after another, in the order of the list. *)
Fixpoint runTokens (cfg : config) (vs : list string) : M Flow :=
  match vs with
  | [] => ret Continue
  | v :: vs' =>
      bind (decodeToken cfg v)
        (fun f => match f with
                  | Return => ret Return
                  | Continue => runTokens cfg vs'
                  end)
  end.

(** The calls a log shows, in order: of the error handler, of the next
    handler, and the response headers set. *)
Definition errHandler_calls (evs : list Event) : list (St * error) :=
  omap (fun ev => match ev with CallErrHandler s e => Some (s, e) | _ => None end) evs.
Definition next_calls (evs : list Event) : list St :=
  omap (fun ev => match ev with CallNext s => Some s | _ => None end) evs.
Definition header_sets (evs : list Event) : list (string * string) :=
  omap (fun ev => match ev with SetResponseHeader k v => Some (k, v) | _ => None end) evs.

(** The error a logged decode step returned, read off the event alone. *)
Definition event_error (cfg : config) (ev : Event) : option error :=
  match ev with
  | CallNewReader Gzip b =>
      match gzip_NewReader b with inl e => Some e | inr _ => None end
  | CallNewReader Zstd b =>
      match zstd_NewReader b (dopts cfg) with inl e => Some e | inr _ => None end
  | CallDecoder i s =>
      match decoders cfg !! i with
      | Some d => snd (Decoder_Handler d s)
      | None => None
      end
  | _ => None
  end.

(** The options a caller can build: [config] is not exported, so the three
    constructors are the only ones. *)
Inductive exported_option : Option -> Prop :=
| exported_WithErrorHandler eh : exported_option (WithErrorHandler eh)
| exported_WithDOptions ds : exported_option (WithDOptions ds)
| exported_WithDecoder ds : exported_option (WithDecoder ds).

(** The codec the switch picks for a token. *)
Definition token_codec (v : string) : option Codec :=
  if String.eqb v "br" then Some Brotli
  else if String.eqb v "gzip" || String.eqb v "x-gzip" then Some Gzip
  else if String.eqb v "zstd" then Some Zstd
  else None.

(** What the package asks of the codecs: a reader over a stream that [enc]
    produced can be opened, and read to the end it gives the payload back. *)
Definition codecs_invert (cfg : config) (enc : Codec -> string -> string) : Prop :=
  (∀ b p, ioutil_ReadAll b = inr (enc Brotli p) →
          ioutil_ReadAll (brotli_NewReader b) = inr p) ∧
  (∀ b p, ioutil_ReadAll b = inr (enc Gzip p) →
          ∃ gr, gzip_NewReader b = inr gr ∧ ioutil_ReadAll gr = inr p) ∧
  (∀ b p, ioutil_ReadAll b = inr (enc Zstd p) →
          ∃ zr, zstd_NewReader b (dopts cfg) = inr zr ∧ ioutil_ReadAll zr = inr p).

(** The codec constructors a log shows as called, in order. *)
Definition codec_calls (evs : list Event) : list Codec :=
  omap (fun ev => match ev with CallNewReader c _ => Some c | _ => None end) evs.

(** A token the loop passes over: the two no-op cases of the switch, and a
    token that is no case of the switch and no registered decoder's. *)
Definition skipped (cfg : config) (v : string) : Prop :=
  v = "" ∨ v = "identity" ∨
  (is_builtin v = false ∧ Forall (fun d => Encoding d ≠ v) (decoders cfg)).

(** [r.Method == http.MethodGet || r.Method == http.MethodHead] *)
Definition passes_through (rq : Request) : bool :=
  String.eqb (Method rq) MethodGet || String.eqb (Method rq) MethodHead.

(** The encodings [Decode] announces, and the Accept-Encoding value it
    writes over the writer of [s]. *)
Definition supported (cfg : config) : list string :=
  ["br"; "gzip"; "zstd"] ++ map Encoding (decoders cfg).

Definition negotiated (cfg : config) (s : St) : string :=
  let current := Header_Get (w_Header (w s)) "Accept-Encoding" in
  if String.eqb current "" then joinWithCommaSpace (supported cfg)
  else mergeAcceptEncoding strset_List current (supported cfg).

Definition after_negotiation (cfg : config) (s : St) : St :=
  set_w_Header (Header_Set (w_Header (w s)) "Accept-Encoding" (negotiated cfg s)) s.

(** The three ways a request is served. *)
Inductive served (cfg : config) (next : Handler) (s : St) : World -> Prop :=
| served_passthrough :
    passes_through (r s) = true ->
    served cfg next s (mkWorld (next s) [CallNext s])
| served_decoded evs s' :
    passes_through (r s) = false ->
    decode_steps cfg s evs s' ->
    served cfg next s
      (mkWorld (next (after_negotiation cfg s'))
         (GetRequestHeader "Content-Encoding" :: evs ++
          [GetResponseHeader "Accept-Encoding";
           SetResponseHeader "Accept-Encoding" (negotiated cfg s');
           CallNext (after_negotiation cfg s')]))
| served_failed pre s' ev s1 e :
    passes_through (r s) = false ->
    decode_steps cfg s pre s' ->
    decode_step cfg s' ev s1 (Some e) ->
    served cfg next s
      (mkWorld (snd (fail_call cfg s1 e))
         (GetRequestHeader "Content-Encoding" :: pre ++ [ev; fst (fail_call cfg s1 e)])).

(** The indices of the custom decoders a log shows as called, in order. *)
Definition called_decoders (evs : list Event) : list nat :=
  omap (fun ev => match ev with CallDecoder i _ => Some i | _ => None end) evs.

(** The indices of the decoders registered for the token [v], ascending. *)
Definition matching_decoders (cfg : config) (v : string) : list nat :=
  filter (fun i => Encoding <$> decoders cfg !! i = Some v)
         (seq 0 (length (decoders cfg))).

(** The decode calls a log shows, codec constructors and custom decoders
    together, in order. *)
Definition decode_calls (evs : list Event) : list (Codec + nat) :=
  omap (fun ev => match ev with
                  | CallNewReader c _ => Some (inl c)
                  | CallDecoder i _ => Some (inr i)
                  | _ => None
                  end) evs.

(** The decode calls one token asks for: its codec's constructor; nothing
    for [""] and ["identity"]; for any other token the decoders registered
    for it, in registration order (none when the token is unknown). *)
Definition token_calls (cfg : config) (v : string) : list (Codec + nat) :=
  match token_codec v with
  | Some c => [inl c]
  | None => if is_builtin v then [] else inr <$> matching_decoders cfg v
  end.

(** A payload encoded for one token, by the codec encoders [enc] and the
    encoders [denc] of the custom decoders (by index): the codec's encoder;
    nothing for [""], ["identity"] and an unknown token; for a custom token
    the encoders of its decoders, the first registered outermost, since its
    decoder runs first.  And a payload encoded once per token of a header
    value, first token first. *)
Definition encode_token (cfg : config) (enc : Codec -> string -> string)
    (denc : nat -> string -> string) (v : string) (p : string) : string :=
  match token_codec v with
  | Some c => enc c p
  | None => if is_builtin v then p else fold_right denc p (matching_decoders cfg v)
  end.

Definition encode_header (cfg : config) (enc : Codec -> string -> string)
    (denc : nat -> string -> string) (vs : list string) (payload : string) : string :=
  fold_left (fun acc v => encode_token cfg enc denc v acc) vs payload.

(** What the package asks of the custom decoders the tokens [vs] reach:
    on a body that reads as a stream [denc] produced, the handler returns
    nil and leaves a body that reads as the payload. *)
Definition decoders_invert (cfg : config) (denc : nat -> string -> string)
    (vs : list string) : Prop :=
  ∀ i d, decoders cfg !! i = Some d → Encoding d ∈ vs →
         is_builtin (Encoding d) = false →
         ∀ s p, ioutil_ReadAll (Body (r s)) = inr (denc i p) →
                snd (Decoder_Handler d s) = None ∧
                ioutil_ReadAll (Body (r (fst (Decoder_Handler d s)))) = inr p.

End Steps.

(** ** The handler of [src/contentencoding.go]

    The same method test and the same loop over the tokens; after the loop
    it calls the next handler at once. *)
Section Plain.
Context {E : Env}.
Local Open Scope go_scope.

Definition Decode_handler_plain (cfg : config) (next : Handler) : M unit :=
  s <- get_st ;;
  if String.eqb (Method (r s)) MethodGet || String.eqb (Method (r s)) MethodHead then
    call_next next
  else
    raw <- request_Header_Get "Content-Encoding" ;;
    let values := splitEncodingHeader raw in
    f <- tokenLoop cfg values (length values) ;;
    match f with
    | Return => ret tt
    | Continue => call_next next
    end.

Definition Decode_plain (opts : list Option) (next : Handler) : M unit :=
  Decode_handler_plain (Decode_config opts) next.

End Plain.

(** ** Words for the statements about tokens *)

(** A token with no comma and no space in it. *)
Definition clean_token (t : string) : Prop :=
  (","%char ∉ list_ascii_of_string t) ∧ (" "%char ∉ list_ascii_of_string t).

(** The number of commas of a string. *)
Definition commas (raw : string) : nat :=
  length (filter (fun c => c = ","%char) (list_ascii_of_string raw)).

(** The custom decoders a list of tokens asks for, token by token: none for
    a token the switch handles, the decoders registered for it otherwise. *)
Definition expected_decoders {E : Env} (cfg : config) (vs : list string) : list nat :=
  concat (map (fun v => if is_builtin v then [] else matching_decoders cfg v) vs).

(** * Properties *)

Example split_ex1 : splitEncodingHeader "gzip, zstd" = ["gzip"; "zstd"].
Proof. reflexivity. Qed.
Example split_ex2 : splitEncodingHeader " " = [""].
Proof. reflexivity. Qed.
Example merge_ex1 :
  mergeAcceptEncoding elements "gzip" ["br"; "gzip"; "zstd"] = "br, gzip, zstd".
Proof. vm_compute. reflexivity. Qed.
Example merge_ex2 :
  mergeAcceptEncoding (fun X => reverse (elements X)) "gzip, deflate" ["br"; "gzip"; "zstd"; "custom"]
  = "br, custom, deflate, gzip, zstd".
Proof. vm_compute. reflexivity. Qed.

Example toy_gzip_zstd :
  let σ := toy_run [] (toy_writer ∅) (toy_request "POST" ["gzip, zstd"] "ZGtest") in
  w_Written (w (st σ)) = "test" /\
  w_Code (w (st σ)) = Some 200 /\
  Header_Get (w_Header (w (st σ))) "Accept-Encoding" = "br, gzip, zstd".
Proof. vm_compute. auto. Qed.

Example toy_custom :
  let σ := toy_run [WithDecoder [toy_suffix_decoder "custom" "-custom"]]
             (toy_writer ∅) (toy_request "POST" ["custom"] "test") in
  w_Written (w (st σ)) = "test-custom" /\
  Header_Get (w_Header (w (st σ))) "Accept-Encoding" = "br, gzip, zstd, custom".
Proof. vm_compute. auto. Qed.

Example toy_error_999 :
  let σ := toy_run [WithErrorHandler (Some toy_errHandler_999)]
             (toy_writer ∅) (toy_request "POST" ["gzip"] "test") in
  w_Code (w (st σ)) = Some 999 /\ w_Written (w (st σ)) = "".
Proof. vm_compute. auto. Qed.

Example toy_error_default :
  let σ := toy_run [] (toy_writer ∅) (toy_request "POST" ["gzip"] "test") in
  w_Code (w (st σ)) = Some 400 /\
  w_Written (w (st σ)) = "gzip: invalid header" +:+ String "010"%char "".
Proof. vm_compute. auto. Qed.

Example toy_merge :
  let σ := toy_run [] (toy_writer {[ "Accept-Encoding" := ["gzip"] ]})
             (toy_request "POST" ["gzip"] "Gtest") in
  Header_Get (w_Header (w (st σ))) "Accept-Encoding" = "br, gzip, zstd".
Proof. vm_compute. auto. Qed.

(** ** The tokenizer *)

Lemma strings_Split_nonempty s sep : strings_Split s sep ≠ [].
Proof.
  destruct s as [|c s]; simpl; [done|].
  destruct (Ascii.eqb c sep); [done|].
  by destruct (strings_Split s sep).
Qed.

Lemma strings_Split_concat s sep :
  String.concat (String sep "") (strings_Split s sep) = s.
Proof.
  induction s as [|c s IH]; simpl; [done|].
  pose proof (strings_Split_nonempty s sep) as Hne.
  destruct (Ascii.eqb_spec c sep) as [->|Hc].
  - simpl. destruct (strings_Split s sep) as [|t ts] eqn:Hs; [done|].
    simpl in *. by rewrite IH.
  - destruct (strings_Split s sep) as [|t ts] eqn:Hs; [done|].
    simpl in *. destruct ts; simpl in *; by rewrite <- IH.
Qed.

Lemma strings_Split_bytes s sep :
  Forall (fun t => (sep ∉ list_ascii_of_string t) ∧
                   (∀ c, c ∈ list_ascii_of_string t → c ∈ list_ascii_of_string s))
         (strings_Split s sep).
Proof.
  induction s as [|c s IH]; simpl.
  - repeat constructor; simpl; [by intros ?%elem_of_nil | done].
  - destruct (Ascii.eqb_spec c sep) as [->|Hc].
    + constructor.
      * simpl. split; [by intros ?%elem_of_nil | by intros ? ?%elem_of_nil].
      * eapply Forall_impl; [exact IH|]. intros t [? Hin]. split; [done|].
        intros c' ?. right. by apply Hin.
    + destruct (strings_Split s sep) as [|t ts] eqn:Hs.
      { by apply strings_Split_nonempty in Hs. }
      inversion IH as [|? ? [Ht Hin] Hts]; subst. constructor.
      * simpl. split.
        -- intros [->|?]%elem_of_cons; [done|]. by apply Ht.
        -- intros c' [->|?]%elem_of_cons; [left | right; by apply Hin].
      * eapply Forall_impl; [exact Hts|]. intros t' [? Hin']. split; [done|].
        intros c' ?. right. by apply Hin'.
Qed.

Lemma Replacer_Replace_delete old s :
  list_ascii_of_string (Replacer_Replace old "" s)
  = filter (fun c => c ≠ old) (list_ascii_of_string s).
Proof.
  induction s as [|c s IH]; simpl; [done|].
  destruct (Ascii.eqb_spec c old) as [->|Hc]; simpl.
  - by rewrite filter_cons_False by (intros ?; congruence).
  - by rewrite filter_cons_True, IH by done.
Qed.

(** ** The Accept-Encoding merge *)

Lemma sort_Strings_Permutation_eq (l1 l2 : list string) :
  l1 ≡ₚ l2 → sort_Strings l1 = sort_Strings l2.
Proof.
  intros Hp. unfold sort_Strings.
  apply (Sorted_unique String.le); try apply Sorted_merge_sort; try apply _.
  by rewrite !merge_sort_Permutation.
Qed.

Lemma sorted_union_spec current adds :
  let l := sorted_union current adds in
  Sorted String.le l ∧ NoDup l ∧ ∀ x, x ∈ l ↔ x ∈ current ∨ x ∈ adds.
Proof.
  unfold sorted_union, sort_Strings. split_and!.
  - apply Sorted_merge_sort; apply _.
  - rewrite merge_sort_Permutation. apply NoDup_elements.
  - intros x. rewrite merge_sort_Permutation, elem_of_elements, elem_of_union,
      !elem_of_list_to_set. done.
Qed.

(** C5, as the code has it: [splitEncodingHeader] is total; it removes the
    space byte (and no other white space) and splits at the commas, keeping
    the order: joining its tokens with a comma gives the raw string back
    without its spaces, no token holds a comma or a space, and the result is
    empty exactly for the empty raw string. *)
Theorem splitEncodingHeader_tokens (raw : string) :
  let tokens := splitEncodingHeader raw in
  (tokens = [] ↔ raw = "") ∧
  list_ascii_of_string (String.concat "," tokens)
    = filter (fun c => c ≠ " "%char) (list_ascii_of_string raw) ∧
  Forall (fun t => (","%char ∉ list_ascii_of_string t) ∧
                   (" "%char ∉ list_ascii_of_string t)) tokens.
Proof.
  unfold splitEncodingHeader. destruct (String.eqb_spec raw "") as [->|Hraw].
  - split_and!; [done | done | constructor].
  - split_and!.
    + split; [|done]. by intros ?%strings_Split_nonempty.
    + change "," with (String ","%char ""). rewrite strings_Split_concat.
      apply Replacer_Replace_delete.
    + eapply Forall_impl; [apply strings_Split_bytes|].
      intros t [Hsep Hin]. split; [done|]. intros Hsp%Hin.
      unfold noSpace_Replace in Hsp. rewrite Replacer_Replace_delete in Hsp.
      by apply list_elem_of_filter in Hsp as [? _].
Qed.

(** C5, the counterexample: a tab is white space, and it stays in its
    token. *)
Lemma splitEncodingHeader_keeps_tab :
  let raw := "gzip," +:+ String "009"%char "br" in
  splitEncodingHeader raw = ["gzip"; String "009"%char "br"] ∧
  HeaderTokenizer_spec raw = ["gzip"; "br"] ∧
  splitEncodingHeader raw ≠ HeaderTokenizer_spec raw.
Proof. split_and!; [reflexivity | reflexivity | by vm_compute]. Qed.

(** C10: whatever order the runtime lists the set in, the merged header is
    the same string. *)
Theorem mergeAcceptEncoding_deterministic
    (List1 List2 : gset string → list string) (raw : string) (adds : list string) :
  (∀ X, List1 X ≡ₚ elements X) →
  (∀ X, List2 X ≡ₚ elements X) →
  mergeAcceptEncoding List1 raw adds = mergeAcceptEncoding List2 raw adds.
Proof.
  intros H1 H2. unfold mergeAcceptEncoding.
  destruct (Nat.eqb (length (splitEncodingHeader raw)) 0); [done|].
  f_equal. apply sort_Strings_Permutation_eq. by rewrite H1, H2.
Qed.

Lemma mergeAcceptEncoding_deterministic_witness :
  mergeAcceptEncoding elements "gzip, deflate" ["br"; "gzip"; "zstd"; "custom"]
  = mergeAcceptEncoding (fun X => reverse (elements X)) "gzip, deflate"
      ["br"; "gzip"; "zstd"; "custom"].
Proof.
  apply (mergeAcceptEncoding_deterministic elements (fun X => reverse (elements X))).
  - intros X. reflexivity.
  - intros X. apply reverse_Permutation.
Defined.

(** ** Runs of the dispatch loop *)

Section Run.
Context {E : Env}.
Implicit Types (cfg : config) (σ : World) (s : St) (v : string).

Lemma World_eta σ : mkWorld (st σ) (log σ) = σ.
Proof. by destruct σ. Qed.

Lemma call_errHandler_run cfg e σ :
  call_errHandler cfg e σ
  = (tt, mkWorld (snd (fail_call cfg (st σ) e))
           (log σ ++ [fst (fail_call cfg (st σ) e)])).
Proof.
  unfold call_errHandler, fail_call. by destruct (errHandler cfg).
Qed.

Lemma call_Handler_run i d σ :
  call_Handler i d σ
  = (snd (Decoder_Handler d (st σ)),
     mkWorld (fst (Decoder_Handler d (st σ))) (log σ ++ [CallDecoder i (st σ)])).
Proof.
  unfold call_Handler, bind, get_st, emit, put_st, ret; simpl.
  by destruct (Decoder_Handler d (st σ)).
Qed.

Lemma decompressBrotli_run σ :
  decompressBrotli σ
  = (tt, mkWorld (set_Body (brotli_NewReader (Body (r (st σ)))) (st σ))
           (log σ ++ [CallNewReader Brotli (Body (r (st σ)))])).
Proof. reflexivity. Qed.

Lemma decompressGzip_run σ :
  decompressGzip σ
  = match gzip_NewReader (Body (r (st σ))) with
    | inl err => (Some err, mkWorld (st σ) (log σ ++ [CallNewReader Gzip (Body (r (st σ)))]))
    | inr gr => (None, mkWorld (set_Body gr (st σ))
                         (log σ ++ [CallNewReader Gzip (Body (r (st σ)))]))
    end.
Proof.
  unfold decompressGzip, bind, get_st, emit, put_st, ret; simpl.
  by destruct (gzip_NewReader (Body (r (st σ)))).
Qed.

Lemma decompressZstd_run opts σ :
  decompressZstd opts σ
  = match zstd_NewReader (Body (r (st σ))) opts with
    | inl err => (Some err, mkWorld (st σ) (log σ ++ [CallNewReader Zstd (Body (r (st σ)))]))
    | inr zr => (None, mkWorld (set_Body zr (st σ))
                         (log σ ++ [CallNewReader Zstd (Body (r (st σ)))]))
    end.
Proof.
  unfold decompressZstd, bind, get_st, emit, put_st, ret; simpl.
  by destruct (zstd_NewReader (Body (r (st σ))) opts).
Qed.

Lemma decode_steps_app cfg s evs s' evs' s'' :
  decode_steps cfg s evs s' → decode_steps cfg s' evs' s'' →
  decode_steps cfg s (evs ++ evs') s''.
Proof. induction 1; simpl; eauto using decode_steps. Qed.

Lemma decode_steps_one cfg s ev s' :
  decode_step cfg s ev s' None → decode_steps cfg s [ev] s'.
Proof. eauto using decode_steps. Qed.

Lemma loop_outcome_ret cfg σ : loop_outcome cfg σ (Continue, σ).
Proof.
  rewrite <- (World_eta σ) at 2. rewrite <- (app_nil_r (log σ)).
  constructor. constructor.
Qed.

Lemma loop_outcome_step cfg σ ev s' :
  decode_step cfg (st σ) ev s' None →
  loop_outcome cfg σ (Continue, mkWorld s' (log σ ++ [ev])).
Proof. intros. by apply outcome_Continue, decode_steps_one. Qed.

Lemma loop_outcome_fail cfg σ ev s1 e :
  decode_step cfg (st σ) ev s1 (Some e) →
  loop_outcome cfg σ
    (Return, mkWorld (snd (fail_call cfg s1 e))
               ((log σ ++ [ev]) ++ [fst (fail_call cfg s1 e)])).
Proof.
  intros Hstep. rewrite <- app_assoc. simpl.
  apply (outcome_Return cfg σ [] (st σ)); [constructor | done].
Qed.

Lemma loop_outcome_trans cfg σ σ1 res :
  loop_outcome cfg σ (Continue, σ1) → loop_outcome cfg σ1 res →
  loop_outcome cfg σ res.
Proof.
  inversion 1 as [evs s' Hsteps|]; subst. inversion 1; subst; simpl in *.
  - rewrite <- app_assoc. constructor. by eapply decode_steps_app.
  - rewrite <- app_assoc, (app_assoc evs).
    apply (outcome_Return cfg σ (evs ++ pre) s'0); [by eapply decode_steps_app | done].
Qed.

Lemma is_builtin_false v :
  is_builtin v = false →
  String.eqb v "br" = false ∧ String.eqb v "gzip" = false ∧
  String.eqb v "x-gzip" = false ∧ String.eqb v "zstd" = false ∧
  String.eqb v "" = false ∧ String.eqb v "identity" = false.
Proof.
  unfold is_builtin. intros H.
  repeat match goal with
         | H : _ || _ = false |- _ => apply orb_false_elim in H; destruct H
         end.
  by split_and!.
Qed.

Lemma rangeDecoders_outcome cfg v ds :
  is_builtin v = false →
  ∀ i σ pre_ds, decoders cfg = pre_ds ++ ds → length pre_ds = i →
  loop_outcome cfg σ (rangeDecoders cfg v i ds σ).
Proof.
  intros Hv. induction ds as [|d rest IH]; intros i σ pre_ds Hds Hlen; simpl.
  { apply loop_outcome_ret. }
  assert (decoders cfg !! i = Some d) as Hi.
  { rewrite Hds, <- Hlen. apply list_lookup_middle. done. }
  assert (∀ σ', loop_outcome cfg σ' (rangeDecoders cfg v (S i) rest σ')) as Hrest.
  { intros σ'. apply (IH _ _ (pre_ds ++ [d])).
    - by rewrite <- app_assoc.
    - rewrite length_app. simpl. lia. }
  destruct (String.eqb_spec v (Encoding d)) as [->|Hne]; [|apply Hrest].
  pose proof (step_custom cfg (st σ) i d Hi Hv) as Hstep.
  unfold bind. rewrite call_Handler_run.
  destruct (snd (Decoder_Handler d (st σ))) as [e|] eqn:Herr.
  - rewrite call_errHandler_run. simpl. by apply loop_outcome_fail.
  - eapply loop_outcome_trans; [|apply Hrest]. by apply loop_outcome_step.
Qed.

Lemma decodeToken_outcome cfg v σ : loop_outcome cfg σ (decodeToken cfg v σ).
Proof.
  unfold decodeToken.
  destruct (String.eqb v "br") eqn:Hbr.
  { apply (loop_outcome_step cfg σ), step_brotli. }
  destruct (String.eqb v "gzip" || String.eqb v "x-gzip") eqn:Hgz.
  { unfold bind. rewrite decompressGzip_run.
    destruct (gzip_NewReader (Body (r (st σ)))) as [e|gr] eqn:Hg.
    - rewrite call_errHandler_run. simpl.
      by apply (loop_outcome_fail cfg σ), step_gzip_err.
    - by apply (loop_outcome_step cfg σ), step_gzip_ok. }
  destruct (String.eqb v "zstd") eqn:Hzs.
  { unfold bind. rewrite decompressZstd_run.
    destruct (zstd_NewReader (Body (r (st σ))) (dopts cfg)) as [e|zr] eqn:Hz.
    - rewrite call_errHandler_run. simpl.
      by apply (loop_outcome_fail cfg σ), step_zstd_err.
    - by apply (loop_outcome_step cfg σ), step_zstd_ok. }
  destruct (String.eqb v "" || String.eqb v "identity") eqn:Hid.
  { apply loop_outcome_ret. }
  apply (rangeDecoders_outcome cfg v _) with (pre_ds := []); [|done..].
  unfold is_builtin. by rewrite Hbr, Hgz, Hzs, Hid.
Qed.

Lemma runTokens_outcome cfg vs : ∀ σ, loop_outcome cfg σ (runTokens cfg vs σ).
Proof.
  induction vs as [|v vs IH]; intros σ; simpl.
  { apply loop_outcome_ret. }
  unfold bind. pose proof (decodeToken_outcome cfg v σ) as Hv.
  destruct (decodeToken cfg v σ) as [[] σ1]; [|done].
  eapply loop_outcome_trans; [exact Hv | apply IH].
Qed.

(** Once a step has returned from the handler, the tokens still to come
    play no part. *)
Lemma runTokens_stops cfg vs more σ :
  fst (runTokens cfg vs σ) = Return →
  runTokens cfg (vs ++ more) σ = runTokens cfg vs σ.
Proof.
  revert σ. induction vs as [|v vs IH]; intros σ; simpl; [done|].
  unfold bind. destruct (decodeToken cfg v σ) as [[] σ1]; [apply IH | done].
Qed.

(** The loop counts [i] down from [len(values) - 1]: it runs the tokens
    last to first. *)
Lemma tokenLoop_take cfg (values : list string) (n : nat) :
  (n ≤ length values)%nat →
  tokenLoop cfg values n = runTokens cfg (rev (take n values)).
Proof.
  induction n as [|i IH]; intros Hn; simpl; [done|].
  destruct (lookup_lt_is_Some_2 values i ltac:(lia)) as [v Hv].
  rewrite (take_S_r _ _ _ Hv), rev_app_distr. simpl.
  rewrite (nth_lookup_Some _ _ _ _ Hv), IH by lia. done.
Qed.

Lemma tokenLoop_rev cfg values :
  tokenLoop cfg values (length values) = runTokens cfg (rev values).
Proof. by rewrite tokenLoop_take, firstn_all by done. Qed.

Lemma Decode_handler_unfold cfg next s :
  passes_through (r s) = false →
  serve (Decode_handler cfg next) s
  = let (f, σ1) :=
      runTokens cfg (rev (splitEncodingHeader (Header_Get (Header (r s)) "Content-Encoding")))
        (mkWorld s [GetRequestHeader "Content-Encoding"]) in
    match f with
    | Return => σ1
    | Continue =>
        mkWorld (next (after_negotiation cfg (st σ1)))
          (log σ1 ++ [GetResponseHeader "Accept-Encoding";
                      SetResponseHeader "Accept-Encoding" (negotiated cfg (st σ1));
                      CallNext (after_negotiation cfg (st σ1))])
    end.
Proof.
  intros Hm. unfold serve, Decode_handler, passes_through in *.
  unfold bind at 1. unfold get_st at 1. simpl. rewrite Hm.
  unfold bind at 1. unfold request_Header_Get, bind, get_st, emit, ret at 1. simpl.
  rewrite tokenLoop_rev.
  destruct (runTokens cfg _ _) as [[] σ1]; simpl; [|done].
  unfold response_Header_Get, response_Header_Set, call_next, after_negotiation,
    negotiated, supported, bind, get_st, emit, put_st, ret; simpl.
  destruct (String.eqb _ ""); simpl; by rewrite <- !app_assoc.
Qed.

Lemma Decode_handler_served cfg next s :
  served cfg next s (serve (Decode_handler cfg next) s).
Proof.
  destruct (passes_through (r s)) eqn:Hm.
  { unfold serve, Decode_handler, passes_through in *.
    unfold bind at 1. unfold get_st at 1. simpl. rewrite Hm.
    by apply served_passthrough. }
  rewrite Decode_handler_unfold by done.
  pose proof (runTokens_outcome cfg
    (rev (splitEncodingHeader (Header_Get (Header (r s)) "Content-Encoding")))
    (mkWorld s [GetRequestHeader "Content-Encoding"])) as Hout.
  destruct (runTokens cfg _ _) as [f σ1].
  inversion Hout; subst; simpl in *.
  - by apply served_decoded.
  - by eapply served_failed.
Qed.

End Run.

(** ** What a log of decode steps holds *)

Section Logs.
Context {E : Env}.
Implicit Types (cfg : config) (σ : World) (s : St) (v : string).

Lemma decode_step_event_error cfg s ev s' res :
  decode_step cfg s ev s' res → event_error cfg ev = res.
Proof.
  destruct 1 as [ |? ? Hg|? ? Hg|? ? Hz|? ? Hz|? ? ? Hi ?]; simpl;
    rewrite ?Hg, ?Hz, ?Hi; done.
Qed.

Lemma decode_step_quiet cfg s ev s' res :
  decode_step cfg s ev s' res →
  errHandler_calls [ev] = [] ∧ next_calls [ev] = [] ∧ header_sets [ev] = [].
Proof. by destruct 1. Qed.

Lemma decode_steps_quiet cfg s evs s' :
  decode_steps cfg s evs s' →
  errHandler_calls evs = [] ∧ next_calls evs = [] ∧ header_sets evs = [] ∧
  Forall (fun ev => event_error cfg ev = None) evs.
Proof.
  induction 1 as [|s ev s' evs s'' Hstep _ (IH1 & IH2 & IH3 & IH4)].
  { by split_and!. }
  pose proof (decode_step_event_error _ _ _ _ _ Hstep).
  destruct Hstep; simpl; split_and!; try done; by constructor.
Qed.

Lemma decode_step_custom_call cfg s ev s' res i s0 :
  decode_step cfg s ev s' res → ev = CallDecoder i s0 →
  ∃ d, decoders cfg !! i = Some d ∧ is_builtin (Encoding d) = false.
Proof. destruct 1; intros ?; simplify_eq. eauto. Qed.

Lemma decode_steps_custom_call cfg s evs s' i s0 :
  decode_steps cfg s evs s' → CallDecoder i s0 ∈ evs →
  ∃ d, decoders cfg !! i = Some d ∧ is_builtin (Encoding d) = false.
Proof.
  induction 1 as [|s ev s' evs s'' Hstep _ IH]; intros Hin.
  { by apply elem_of_nil in Hin. }
  apply elem_of_cons in Hin as [<-|Hin]; [|by apply IH].
  by eapply decode_step_custom_call.
Qed.

Lemma is_builtin_spec v :
  is_builtin v = true ↔ v ∈ ["br"; "gzip"; "x-gzip"; "zstd"; "identity"; ""].
Proof.
  unfold is_builtin. rewrite !orb_true_iff, !String.eqb_eq.
  rewrite !elem_of_cons, elem_of_nil. tauto.
Qed.

End Logs.

(** ** The claims about the dispatcher *)

Section Claims.
Context {E : Env}.
Implicit Types (cfg : config) (next : Handler) (σ : World) (s : St) (v : string).

(** C6: a GET or HEAD request goes to the next handler as it came: the
    only thing the middleware does is call [next] with the writer and the
    request it received, so no header is read, no body replaced and no
    Accept-Encoding set, whatever the Content-Encoding says. *)
Theorem Decode_handler_GET_HEAD cfg next s :
  Method (r s) = "GET" ∨ Method (r s) = "HEAD" →
  serve (Decode_handler cfg next) s = mkWorld (next s) [CallNext s].
Proof.
  intros Hm.
  assert (passes_through (r s) = true) as Hp.
  { unfold passes_through, MethodGet, MethodHead.
    destruct Hm as [-> | ->]; by rewrite ?orb_true_r. }
  pose proof (Decode_handler_served cfg next s) as Hs.
  inversion Hs; congruence.
Qed.

(** C8: a custom decoder registered under a token the switch handles
    itself is never called. *)
Theorem builtin_tokens_shadow_custom cfg next s i d s0 :
  decoders cfg !! i = Some d →
  Encoding d ∈ ["br"; "gzip"; "x-gzip"; "zstd"; "identity"; ""] →
  CallDecoder i s0 ∉ log (serve (Decode_handler cfg next) s).
Proof.
  intros Hi Hb%is_builtin_spec Hin.
  assert (∀ evs s1 s', decode_steps cfg s1 evs s' → CallDecoder i s0 ∉ evs) as Hsteps.
  { intros evs s1 s' Hst Hin'.
    destruct (decode_steps_custom_call _ _ _ _ _ _ Hst Hin') as (d' & Hd' & Hnb).
    congruence. }
  pose proof (Decode_handler_served cfg next s) as Hs.
  inversion Hs as [Hp Heq | evs s' Hp Hst Heq | pre s' ev s1 e Hp Hst Hstep Heq];
    rewrite <- Heq in Hin; simpl in Hin.
  - apply list_elem_of_singleton in Hin. done.
  - apply elem_of_cons in Hin as [?|Hin]; [done|].
    apply elem_of_app in Hin as [Hin|Hin]; [by eapply Hsteps|].
    repeat (apply elem_of_cons in Hin as [?|Hin]; [done|]).
    by apply elem_of_nil in Hin.
  - apply elem_of_cons in Hin as [?|Hin]; [done|].
    apply elem_of_app in Hin as [Hin|Hin]; [by eapply Hsteps|].
    apply elem_of_cons in Hin as [Hev|Hin].
    { destruct (decode_step_custom_call _ _ _ _ _ i s0 Hstep) as (d' & Hd' & Hnb);
        [done | congruence]. }
    apply list_elem_of_singleton in Hin.
    unfold fail_call in Hin. by destruct (errHandler cfg).
Qed.

(** C2: when a decode step of the run returns an error, that step is the
    last one; every step before it returned nil; the error handler is
    called once, with the writer and the request as the failed step left
    them and with that error; the next handler is not called and no
    response header is set. *)
Theorem error_handler_once cfg eh next s ev e :
  errHandler cfg = Some eh →
  ev ∈ log (serve (Decode_handler cfg next) s) →
  event_error cfg ev = Some e →
  let σ := serve (Decode_handler cfg next) s in
  ∃ pre s' s1,
    decode_steps cfg s pre s' ∧
    decode_step cfg s' ev s1 (Some e) ∧
    log σ = GetRequestHeader "Content-Encoding" :: pre ++ [ev; CallErrHandler s1 e] ∧
    st σ = eh s1 e ∧
    errHandler_calls (log σ) = [(s1, e)] ∧
    next_calls (log σ) = [] ∧
    header_sets (log σ) = [].
Proof.
  intros Heh Hin Herr. cbv zeta. revert Hin.
  destruct (Decode_handler_served cfg next s)
    as [_ | evs s' _ Hst | pre s' ev' s1 e' _ Hst Hstep]; simpl; intros Hin.
  - apply list_elem_of_singleton in Hin. by subst ev.
  - exfalso. destruct (decode_steps_quiet _ _ _ _ Hst) as (_ & _ & _ & Hnone).
    apply elem_of_cons in Hin as [->|Hin]; [done|].
    apply elem_of_app in Hin as [Hin|Hin].
    { rewrite Forall_forall in Hnone. specialize (Hnone _ Hin). congruence. }
    repeat (apply elem_of_cons in Hin as [->|Hin]; [done|]).
    by apply elem_of_nil in Hin.
  - destruct (decode_steps_quiet _ _ _ _ Hst) as (Hq1 & Hq2 & Hq3 & Hnone).
    pose proof (decode_step_event_error _ _ _ _ _ Hstep) as Herr'.
    destruct (decode_step_quiet _ _ _ _ _ Hstep) as (Hs1 & Hs2 & Hs3).
    assert (ev = ev' ∧ e = e') as [-> ->].
    { apply elem_of_cons in Hin as [->|Hin]; [done|].
      apply elem_of_app in Hin as [Hin|Hin].
      { rewrite Forall_forall in Hnone. specialize (Hnone _ Hin). congruence. }
      apply elem_of_cons in Hin as [->|Hin]; [split; congruence|].
      apply list_elem_of_singleton in Hin. subst ev.
      unfold fail_call in Herr. rewrite Heh in Herr. done. }
    unfold fail_call. rewrite Heh. simpl.
    exists pre, s', s1. split_and!; try done.
    + unfold errHandler_calls in *. simpl. rewrite omap_app, Hq1. simpl.
      simpl in Hs1. destruct ev'; simplify_eq/=; done.
    + unfold next_calls in *. simpl. rewrite omap_app, Hq2. simpl.
      simpl in Hs2. destruct ev'; simplify_eq/=; done.
    + unfold header_sets in *. simpl. rewrite omap_app, Hq3. simpl.
      simpl in Hs3. destruct ev'; simplify_eq/=; done.
Qed.

(** C9: the [br] case cannot fail: it wraps the body and goes on, and
    calls nothing else.  The [gzip], [x-gzip] and [zstd] cases fail when
    their constructor does, and then hand that error to the error handler
    and return. *)
Theorem br_token_never_fails cfg eh σ :
  errHandler cfg = Some eh →
  let b := Body (r (st σ)) in
  decodeToken cfg "br" σ
    = (Continue, mkWorld (set_Body (brotli_NewReader b) (st σ))
                   (log σ ++ [CallNewReader Brotli b])) ∧
  (∀ v e, v = "gzip" ∨ v = "x-gzip" → gzip_NewReader b = inl e →
     decodeToken cfg v σ
     = (Return, mkWorld (eh (st σ) e)
                  (log σ ++ [CallNewReader Gzip b; CallErrHandler (st σ) e]))) ∧
  (∀ e, zstd_NewReader b (dopts cfg) = inl e →
     decodeToken cfg "zstd" σ
     = (Return, mkWorld (eh (st σ) e)
                  (log σ ++ [CallNewReader Zstd b; CallErrHandler (st σ) e]))).
Proof.
  intros Heh b. subst b. split_and!.
  - reflexivity.
  - intros v e Hv Hg.
    assert (decodeToken cfg v σ
            = bind decompressGzip
                (fun err => match err with
                            | Some e => bind (call_errHandler cfg e) (fun _ => ret Return)
                            | None => ret Continue
                            end) σ) as ->.
    { by destruct Hv as [-> | ->]. }
    unfold bind. rewrite decompressGzip_run, Hg, call_errHandler_run.
    unfold fail_call. rewrite Heh. simpl. by rewrite <- app_assoc.
  - intros e Hz. unfold decodeToken. simpl.
    unfold bind. rewrite decompressZstd_run, Hz, call_errHandler_run.
    unfold fail_call. rewrite Heh. simpl. by rewrite <- app_assoc.
Qed.

Lemma rangeDecoders_no_match cfg v ds :
  Forall (fun d => Encoding d ≠ v) ds →
  ∀ i σ, rangeDecoders cfg v i ds σ = (Continue, σ).
Proof.
  induction 1 as [|d rest Hd _ IH]; intros i σ; simpl; [done|].
  destruct (String.eqb_spec v (Encoding d)); [congruence | apply IH].
Qed.

Lemma decodeToken_skipped cfg v σ :
  skipped cfg v → decodeToken cfg v σ = (Continue, σ).
Proof.
  intros [-> | [-> | [Hb Hds]]]; [done | done |].
  unfold decodeToken.
  destruct (is_builtin_false _ Hb) as (-> & -> & -> & -> & -> & ->). simpl.
  by apply rangeDecoders_no_match.
Qed.

Lemma runTokens_skipped cfg vs σ :
  Forall (skipped cfg) vs → runTokens cfg vs σ = (Continue, σ).
Proof.
  induction 1 as [|v vs Hv _ IH]; simpl; [done|].
  unfold bind. by rewrite decodeToken_skipped.
Qed.

(** C7: the tokens [""] and ["identity"], and a token that is no case of the
    switch and no registered decoder's, change nothing and fail nothing; a
    request whose tokens are all of that kind reaches the next handler with
    the request it came with, body included. *)
Theorem skipped_tokens_pass cfg :
  (∀ v σ, skipped cfg v → decodeToken cfg v σ = (Continue, σ)) ∧
  (∀ next s,
     passes_through (r s) = false →
     Forall (skipped cfg)
       (splitEncodingHeader (Header_Get (Header (r s)) "Content-Encoding")) →
     serve (Decode_handler cfg next) s
     = mkWorld (next (after_negotiation cfg s))
         [GetRequestHeader "Content-Encoding";
          GetResponseHeader "Accept-Encoding";
          SetResponseHeader "Accept-Encoding" (negotiated cfg s);
          CallNext (after_negotiation cfg s)]
     ∧ r (after_negotiation cfg s) = r s).
Proof.
  split; [intros; by apply decodeToken_skipped|].
  intros next s Hp Hsk. split; [|done].
  rewrite Decode_handler_unfold by done.
  rewrite runTokens_skipped; [done|]. by apply Forall_rev.
Qed.

Lemma rangeDecoders_calls cfg v ds :
  ∀ i σ pre_ds, decoders cfg = pre_ds ++ ds → length pre_ds = i →
  ∃ evs,
    log (snd (rangeDecoders cfg v i ds σ)) = log σ ++ evs ∧
    called_decoders evs `prefix_of`
      filter (fun j => Encoding <$> decoders cfg !! j = Some v) (seq i (length ds)) ∧
    (fst (rangeDecoders cfg v i ds σ) = Continue →
     called_decoders evs
     = filter (fun j => Encoding <$> decoders cfg !! j = Some v) (seq i (length ds))).
Proof.
  induction ds as [|d rest IH]; intros i σ pre_ds Hds Hlen; simpl.
  { exists []. by rewrite app_nil_r. }
  assert (decoders cfg !! i = Some d) as Hi.
  { rewrite Hds, <- Hlen. by apply list_lookup_middle. }
  assert (decoders cfg = (pre_ds ++ [d]) ++ rest ∧ length (pre_ds ++ [d]) = S i)
    as [Hds' Hlen'].
  { rewrite <- app_assoc, length_app. simpl. split; [done | lia]. }
  destruct (String.eqb_spec v (Encoding d)) as [Hv|Hne].
  - rewrite filter_cons_True by (by rewrite Hi, Hv).
    unfold bind. rewrite call_Handler_run.
    destruct (snd (Decoder_Handler d (st σ))) as [e|].
    + rewrite call_errHandler_run. simpl.
      exists [CallDecoder i (st σ); fst (fail_call cfg (fst (Decoder_Handler d (st σ))) e)].
      split_and!; [by rewrite <- app_assoc | | done].
      unfold fail_call. destruct (errHandler cfg); simpl; by apply prefix_cons, prefix_nil.
    + destruct (IH (S i) (mkWorld (fst (Decoder_Handler d (st σ)))
                           (log σ ++ [CallDecoder i (st σ)])) _ Hds' Hlen')
        as (evs & Hlog & Hpre & Hall).
      exists (CallDecoder i (st σ) :: evs).
      split_and!.
      * rewrite Hlog. simpl. by rewrite <- app_assoc.
      * simpl. by apply prefix_cons.
      * intros Hc. simpl. f_equal. by apply Hall.
  - rewrite filter_cons_False by (rewrite Hi; simpl; congruence).
    apply (IH (S i) σ _ Hds' Hlen').
Qed.


Lemma decode_calls_app evs evs' :
  decode_calls (evs ++ evs') = decode_calls evs ++ decode_calls evs'.
Proof. apply omap_app. Qed.

Lemma rangeDecoders_layers cfg denc v ds :
  is_builtin v = false →
  decoders_invert cfg denc [v] →
  ∀ i σ pre_ds p,
    decoders cfg = pre_ds ++ ds → length pre_ds = i →
    ioutil_ReadAll (Body (r (st σ)))
    = inr (fold_right denc p
             (filter (fun j => Encoding <$> decoders cfg !! j = Some v)
                (seq i (length ds)))) →
    ∃ σ1 evs,
      rangeDecoders cfg v i ds σ = (Continue, σ1) ∧
      ioutil_ReadAll (Body (r (st σ1))) = inr p ∧
      log σ1 = log σ ++ evs ∧
      decode_calls evs
      = inr <$> filter (fun j => Encoding <$> decoders cfg !! j = Some v)
                  (seq i (length ds)) ∧
      errHandler_calls evs = [] ∧ next_calls evs = [].
Proof.
  intros Hb Hlaw.
  induction ds as [|d rest IH]; intros i σ pre_ds p Hds Hlen Hbody; simpl.
  { exists σ, []. by rewrite app_nil_r. }
  assert (decoders cfg !! i = Some d) as Hi.
  { rewrite Hds, <- Hlen. by apply list_lookup_middle. }
  assert (decoders cfg = (pre_ds ++ [d]) ++ rest ∧ length (pre_ds ++ [d]) = S i)
    as [Hds' Hlen'].
  { rewrite <- app_assoc, length_app. simpl. split; [done | lia]. }
  simpl in Hbody.
  destruct (String.eqb_spec v (Encoding d)) as [Hv|Hne].
  - rewrite filter_cons_True in Hbody |- * by (by rewrite Hi, Hv).
    simpl in Hbody.
    destruct (Hlaw i d Hi) with (s := st σ)
      (p := fold_right denc p
              (filter (fun j => Encoding <$> decoders cfg !! j = Some v)
                 (seq (S i) (length rest)))) as [Herr Hread];
      [rewrite <- Hv; by left | by rewrite <- Hv | done |].
    unfold bind. rewrite call_Handler_run, Herr.
    destruct (IH (S i) (mkWorld (fst (Decoder_Handler d (st σ)))
                          (log σ ++ [CallDecoder i (st σ)])) _ p Hds' Hlen' Hread)
      as (σ1 & evs & Hrun & Hp & Hlog & Hcalls & He & Hn).
    exists σ1, (CallDecoder i (st σ) :: evs). split_and!; try done.
    + rewrite Hlog. simpl. by rewrite <- app_assoc.
    + simpl. by rewrite Hcalls.
  - rewrite filter_cons_False in Hbody |- * by (rewrite Hi; simpl; congruence).
    by apply (IH (S i) σ _ p Hds' Hlen').
Qed.

Lemma decodeToken_layers cfg enc denc v σ p :
  codecs_invert cfg enc →
  decoders_invert cfg denc [v] →
  ioutil_ReadAll (Body (r (st σ))) = inr (encode_token cfg enc denc v p) →
  ∃ σ1 evs,
    decodeToken cfg v σ = (Continue, σ1) ∧
    ioutil_ReadAll (Body (r (st σ1))) = inr p ∧
    log σ1 = log σ ++ evs ∧
    decode_calls evs = token_calls cfg v ∧
    errHandler_calls evs = [] ∧ next_calls evs = [].
Proof.
  intros (Hbr & Hgz & Hzs) Hlaw.
  unfold encode_token, token_calls, decodeToken, token_codec, is_builtin.
  destruct (String.eqb v "br") eqn:Hvbr; simpl.
  { intros Hbody. eexists _, [_]. split; [reflexivity|]. simpl. eauto 10. }
  destruct (String.eqb v "gzip" || String.eqb v "x-gzip") eqn:Hvgz; simpl.
  { intros Hbody. destruct (Hgz _ _ Hbody) as (gr & Hg & Hread).
    unfold bind. rewrite decompressGzip_run, Hg.
    eexists _, [_]. split; [reflexivity|]. simpl. eauto 10. }
  destruct (String.eqb v "zstd") eqn:Hvzs; simpl.
  { intros Hbody. destruct (Hzs _ _ Hbody) as (zr & Hz & Hread).
    unfold bind. rewrite decompressZstd_run, Hz.
    eexists _, [_]. split; [reflexivity|]. simpl. eauto 10. }
  destruct (String.eqb v "" || String.eqb v "identity") eqn:Hvid; simpl.
  { intros Hbody. exists σ, []. by rewrite app_nil_r. }
  intros Hbody.
  apply (rangeDecoders_layers cfg denc v (decoders cfg)) with (pre_ds := []);
    try done.
  unfold is_builtin. by rewrite Hvbr, Hvgz, Hvzs, Hvid.
Qed.

Lemma decoders_invert_mono cfg denc vs ws :
  (∀ v, v ∈ ws → v ∈ vs) → decoders_invert cfg denc vs → decoders_invert cfg denc ws.
Proof. intros Hsub Hlaw i d Hi Hin. apply Hlaw; auto. Qed.

Lemma runTokens_layers cfg enc denc :
  codecs_invert cfg enc →
  ∀ ws σ p,
    decoders_invert cfg denc ws →
    ioutil_ReadAll (Body (r (st σ))) = inr (encode_header cfg enc denc (rev ws) p) →
    ∃ σ1 evs,
      runTokens cfg ws σ = (Continue, σ1) ∧
      ioutil_ReadAll (Body (r (st σ1))) = inr p ∧
      log σ1 = log σ ++ evs ∧
      decode_calls evs = concat (map (token_calls cfg) ws) ∧
      errHandler_calls evs = [] ∧ next_calls evs = [].
Proof.
  intros Hinv.
  induction ws as [|v ws IH]; intros σ p Hlaw Hbody; simpl.
  { exists σ, []. by rewrite app_nil_r. }
  simpl in Hbody. unfold encode_header in Hbody.
  rewrite fold_left_app in Hbody. simpl in Hbody.
  fold (encode_header cfg enc denc (rev ws) p) in Hbody.
  assert (decoders_invert cfg denc [v]) as Hlawv.
  { eapply decoders_invert_mono; [|exact Hlaw].
    intros v' ->%list_elem_of_singleton. by left. }
  destruct (decodeToken_layers cfg enc denc v σ
              (encode_header cfg enc denc (rev ws) p) Hinv Hlawv Hbody)
    as (σ' & evs1 & Hstep & Hbody' & Hlog1 & Hc1 & He1 & Hn1).
  destruct (IH σ' p) as (σ1 & evs2 & Hrun & Hp & Hlog2 & Hc2 & He2 & Hn2);
    [|done|].
  { eapply decoders_invert_mono; [|exact Hlaw]. intros v' ?. by right. }
  exists σ1, (evs1 ++ evs2). unfold bind. rewrite Hstep.
  split_and!; try done.
  - by rewrite Hlog2, Hlog1, <- app_assoc.
  - by rewrite decode_calls_app, Hc1, Hc2.
  - unfold errHandler_calls in *. by rewrite omap_app, He1, He2.
  - unfold next_calls in *. by rewrite omap_app, Hn1, Hn2.
Qed.

(** C1: the loop runs the tokens last to first, whatever they are.  So
    for every request that is not GET or HEAD whose body is the payload
    encoded once per token of its Content-Encoding, first token first, by
    encoders the codecs and the custom decoders undo, the decode calls are
    those of the tokens in the reverse of the header order (for ["A, B"],
    B's decoder before A's, a codec of the switch or a custom decoder
    alike; [""], ["identity"] and unknown tokens call nothing), no error
    handler runs, and the next handler gets a body that reads as the
    payload. *)
Theorem layers_decoded_in_reverse cfg :
  (∀ values σ,
     tokenLoop cfg values (length values) σ = runTokens cfg (rev values) σ) ∧
  (∀ next s enc denc payload,
     let vs := splitEncodingHeader (Header_Get (Header (r s)) "Content-Encoding") in
     passes_through (r s) = false →
     codecs_invert cfg enc →
     decoders_invert cfg denc vs →
     ioutil_ReadAll (Body (r s)) = inr (encode_header cfg enc denc vs payload) →
     let σ := serve (Decode_handler cfg next) s in
     decode_calls (log σ) = concat (map (token_calls cfg) (rev vs)) ∧
     errHandler_calls (log σ) = [] ∧
     ∃ s1, next_calls (log σ) = [s1] ∧ ioutil_ReadAll (Body (r s1)) = inr payload).
Proof.
  split; [intros; by rewrite tokenLoop_rev|].
  intros next s enc denc payload vs Hp Hinv Hlaw Hbody σ. subst σ.
  rewrite Decode_handler_unfold by done. fold vs.
  destruct (runTokens_layers cfg enc denc Hinv (rev vs)
              (mkWorld s [GetRequestHeader "Content-Encoding"]) payload)
    as (σ1 & evs & Hrun & Hread & Hlog & Hcalls & Herrs & Hnext).
  { eapply decoders_invert_mono; [|exact Hlaw].
    intros v Hv. apply list_elem_of_In, in_rev. by apply list_elem_of_In. }
  { simpl. by rewrite rev_involutive. }
  rewrite Hrun. simpl in *. rewrite Hlog. split_and!.
  - simpl. rewrite decode_calls_app, Hcalls. simpl. by rewrite app_nil_r.
  - unfold errHandler_calls in *. simpl. rewrite omap_app, Herrs. done.
  - exists (after_negotiation cfg (st σ1)). split; [|done].
    unfold next_calls in *. simpl. rewrite omap_app, Hnext. done.
Qed.

Lemma decode_steps_builtin_frame cfg s evs s' :
  decode_steps cfg s evs s' → called_decoders evs = [] →
  w s' = w s ∧ Method (r s') = Method (r s) ∧ Header (r s') = Header (r s).
Proof.
  induction 1 as [|s ev s' evs s'' Hstep _ IH]; intros Hcalls; [done|].
  remember None as res eqn:Hres.
  destruct Hstep; simplify_eq/=; destruct (IH Hcalls) as (-> & -> & ->); done.
Qed.

Lemma mergeAcceptEncoding_sorted_union raw adds :
  (∀ X, strset_List X ≡ₚ elements X) →
  raw ≠ "" →
  mergeAcceptEncoding strset_List raw adds
  = joinWithCommaSpace (sorted_union (splitEncodingHeader raw) adds).
Proof.
  intros HList Hraw. unfold mergeAcceptEncoding, sorted_union.
  destruct (splitEncodingHeader raw) as [|t ts] eqn:Hsplit.
  { unfold splitEncodingHeader in Hsplit.
    destruct (String.eqb_spec raw ""); [done|].
    by apply strings_Split_nonempty in Hsplit. }
  simpl. f_equal. apply sort_Strings_Permutation_eq, HList.
Qed.

(** C3, as the code has it: on the success path the Accept-Encoding header
    of the writer the next handler gets holds one value.  When
    [Header.Get] finds no value or an empty one on the writer the decode
    loop left (the incoming writer, when no custom decoder ran), it is the
    fixed list [br, gzip, zstd] and the custom tokens in registration
    order; otherwise it is the sorted, duplicate-free union of the tokens
    of that first value and of the fixed list.  Both are joined with a
    comma and a space. *)
Theorem Accept_Encoding_negotiation cfg next s s1 :
  (∀ X, strset_List X ≡ₚ elements X) →
  passes_through (r s) = false →
  s1 ∈ next_calls (log (serve (Decode_handler cfg next) s)) →
  ∃ evs s' value,
    decode_steps cfg s evs s' ∧
    (called_decoders evs = [] → w s' = w s) ∧
    log (serve (Decode_handler cfg next) s)
    = GetRequestHeader "Content-Encoding" :: evs ++
        [GetResponseHeader "Accept-Encoding";
         SetResponseHeader "Accept-Encoding" value; CallNext s1] ∧
    s1 = set_w_Header (<["Accept-Encoding" := [value]]> (w_Header (w s'))) s' ∧
    let prior := Header_Get (w_Header (w s')) "Accept-Encoding" in
    let fixed := ["br"; "gzip"; "zstd"] ++ map Encoding (decoders cfg) in
    (prior = "" → value = joinWithCommaSpace fixed) ∧
    (prior ≠ "" →
     ∃ l, value = joinWithCommaSpace l ∧ Sorted String.le l ∧ NoDup l ∧
          ∀ x, x ∈ l ↔ x ∈ splitEncodingHeader prior ∨ x ∈ fixed).
Proof.
  intros HList Hp.
  destruct (Decode_handler_served cfg next s)
    as [Hp' | evs s' _ Hst | pre s' ev s1' e _ Hst Hstep];
    [congruence| |]; simpl; intros Hin.
  - destruct (decode_steps_quiet _ _ _ _ Hst) as (_ & Hq & _ & _).
    unfold next_calls in Hin, Hq. rewrite omap_app, Hq in Hin. simpl in Hin.
    apply list_elem_of_singleton in Hin. subst s1.
    exists evs, s', (negotiated cfg s'). split_and!; try done.
    + intros Hc. by destruct (decode_steps_builtin_frame _ _ _ _ Hst Hc).
    + unfold negotiated, supported. intros ->. done.
    + intros Hprior. unfold negotiated.
      destruct (String.eqb_spec (Header_Get (w_Header (w s')) "Accept-Encoding") "");
        [done|].
      rewrite mergeAcceptEncoding_sorted_union by done.
      eexists. split; [reflexivity|]. apply sorted_union_spec.
  - exfalso. destruct (decode_steps_quiet _ _ _ _ Hst) as (_ & Hq & _ & _).
    destruct (decode_step_quiet _ _ _ _ _ Hstep) as (_ & Hq' & _).
    unfold next_calls in Hin, Hq, Hq'. rewrite omap_app, Hq in Hin. simpl in *.
    unfold fail_call in Hin.
    destruct ev; simplify_eq/=; destruct (errHandler cfg); simpl in Hin;
      by apply elem_of_nil in Hin.
Qed.

(** [Decode] never leaves the error handler nil. *)
Lemma Decode_config_errHandler opts :
  Forall exported_option opts → is_Some (errHandler (Decode_config opts)).
Proof.
  intros Hopts. unfold Decode_config, defaults. simpl.
  assert (is_Some (errHandler (WithErrorHandler None new_config))) as H0
    by (simpl; eauto).
  revert H0. generalize (WithErrorHandler None new_config).
  induction Hopts as [|opt opts Hopt _ IH]; intros cfg Hcfg; simpl; [done|].
  apply IH. destruct Hopt; simpl; eauto.
Qed.

End Claims.

(** ** The claims on the toy instance *)

Lemma Decode_handler_GET_HEAD_witness :
  let s := toy_st ∅ "GET" ["gzip"] "test" in
  Method (r s) = "GET" ∧
  serve (Decode_handler (Decode_config []) toy_next) s
  = mkWorld (toy_next s) [CallNext s].
Proof.
  split; [reflexivity|].
  apply (@Decode_handler_GET_HEAD toy). left. reflexivity.
Defined.

Lemma builtin_tokens_shadow_custom_witness :
  let d := toy_suffix_decoder "gzip" "-custom" in
  let cfg := Decode_config [WithDecoder [d]] in
  let s := toy_st ∅ "POST" ["gzip"] "Gtest" in
  CallDecoder 0 s ∉ log (serve (Decode_handler cfg toy_next) s).
Proof.
  apply (@builtin_tokens_shadow_custom toy _ toy_next _ 0
           (toy_suffix_decoder "gzip" "-custom")).
  - reflexivity.
  - apply is_builtin_spec. reflexivity.
Defined.


(** C3, the counterexample: the writer carries an Accept-Encoding header
    whose value is empty; the header is set to the fixed list, not to the
    sorted union. *)
Lemma Accept_Encoding_empty_prior_value :
  let hdr : gmap string (list string) := {[ "Accept-Encoding" := [""] ]} in
  let σ := toy_run [WithDecoder [toy_suffix_decoder "custom" "-custom"]]
             (toy_writer hdr) (toy_request "POST" [] "test") in
  let merged :=
    joinWithCommaSpace
      (sorted_union (splitEncodingHeader (Header_Get hdr "Accept-Encoding"))
         ["br"; "gzip"; "zstd"; "custom"]) in
  hdr !! "Accept-Encoding" = Some [""] ∧
  w_Header (w (st σ)) !! "Accept-Encoding" = Some ["br, gzip, zstd, custom"] ∧
  merged = "br, custom, gzip, zstd" ∧
  w_Header (w (st σ)) !! "Accept-Encoding" ≠ Some [merged].
Proof. vm_compute. split_and!; [reflexivity.. | discriminate]. Qed.

Lemma error_handler_once_witness :
  let cfg := Decode_config [WithErrorHandler (Some toy_errHandler_999)] in
  let s := toy_st ∅ "POST" ["gzip"] "test" in
  let ev := @CallNewReader toy Gzip (inr "test") in
  let e : @error toy := "gzip: invalid header" in
  let σ := serve (Decode_handler cfg toy_next) s in
  event_error cfg ev = Some e ∧
  ∃ pre s' s1,
    decode_steps cfg s pre s' ∧
    decode_step cfg s' ev s1 (Some e) ∧
    log σ = GetRequestHeader "Content-Encoding" :: pre ++ [ev; CallErrHandler s1 e] ∧
    st σ = toy_errHandler_999 s1 e ∧
    errHandler_calls (log σ) = [(s1, e)] ∧
    next_calls (log σ) = [] ∧
    header_sets (log σ) = [].
Proof.
  split; [reflexivity|].
  apply (@error_handler_once toy
           (Decode_config [WithErrorHandler (Some toy_errHandler_999)])
           toy_errHandler_999 toy_next (toy_st ∅ "POST" ["gzip"] "test")
           (@CallNewReader toy Gzip (inr "test")) "gzip: invalid header").
  - reflexivity.
  - apply list_elem_of_In. vm_compute. right. left. reflexivity.
  - reflexivity.
Defined.

Lemma br_token_never_fails_witness :
  let cfg := Decode_config [] in
  let s := toy_st ∅ "POST" ["gzip"] "test" in
  let σ := @mkWorld toy s [] in
  let e : @error toy := "gzip: invalid header" in
  gzip_NewReader (Body (r s)) = inl e ∧
  decodeToken cfg "gzip" σ
  = (Return, mkWorld (DefaultErrorHandler s e)
               [CallNewReader Gzip (Body (r s)); CallErrHandler s e]).
Proof.
  split; [reflexivity|].
  apply (proj1 (proj2 (@br_token_never_fails toy (Decode_config []) DefaultErrorHandler
                         (@mkWorld toy (toy_st ∅ "POST" ["gzip"] "test") [])
                         eq_refl))
           "gzip" "gzip: invalid header").
  - left. reflexivity.
  - reflexivity.
Defined.

Lemma skipped_tokens_pass_witness :
  let cfg := Decode_config [WithDecoder [toy_suffix_decoder "custom" "-custom"]] in
  let s := toy_st ∅ "POST" ["identity, deflate"] "test" in
  serve (Decode_handler cfg toy_next) s
  = mkWorld (toy_next (after_negotiation cfg s))
      [GetRequestHeader "Content-Encoding";
       GetResponseHeader "Accept-Encoding";
       SetResponseHeader "Accept-Encoding" (negotiated cfg s);
       CallNext (after_negotiation cfg s)]
  ∧ r (after_negotiation cfg s) = r s.
Proof.
  apply (proj2 (@skipped_tokens_pass toy
                  (Decode_config [WithDecoder [toy_suffix_decoder "custom" "-custom"]]))
           toy_next (toy_st ∅ "POST" ["identity, deflate"] "test")).
  - reflexivity.
  - change (Forall (skipped (Decode_config [WithDecoder [toy_suffix_decoder "custom" "-custom"]]))
              ["identity"; "deflate"]).
    constructor; [right; left; reflexivity|].
    constructor; [|constructor].
    right; right. split; [reflexivity|].
    constructor; [discriminate | constructor].
Defined.


Lemma toy_codecs_invert cfg : @codecs_invert toy cfg toy_enc.
Proof.
  split_and!; simpl; intros b p ->; simpl; eauto.
Defined.

Lemma layers_decoded_in_reverse_witness :
  let cfg := @Decode_config toy [WithDecoder [toy_strip_decoder "custom" "C";
                                               toy_suffix_decoder "other" "-o"]] in
  let denc := fun (i : nat) (p : string) =>
                match i with O => String "C" p | _ => p end in
  let s := toy_st ∅ "POST" ["custom, identity, gzip, deflate, zstd"] "ZGCtest" in
  let σ := serve (Decode_handler cfg toy_next) s in
  encode_header cfg toy_enc denc ["custom"; "identity"; "gzip"; "deflate"; "zstd"] "test"
  = "ZGCtest" ∧
  decode_calls (log σ) = [inl Zstd; inl Gzip; inr 0] ∧
  errHandler_calls (log σ) = [] ∧
  ∃ s1, next_calls (log σ) = [s1] ∧ ioutil_ReadAll (Body (r s1)) = inr "test".
Proof.
  split; [reflexivity|].
  apply (proj2 (@layers_decoded_in_reverse toy
                  (Decode_config [WithDecoder [toy_strip_decoder "custom" "C";
                                               toy_suffix_decoder "other" "-o"]]))
           toy_next
           (toy_st ∅ "POST" ["custom, identity, gzip, deflate, zstd"] "ZGCtest")
           toy_enc
           (fun (i : nat) (p : string) => match i with O => String "C" p | _ => p end)
           "test").
  - reflexivity.
  - apply toy_codecs_invert.
  - change (splitEncodingHeader _)
      with ["custom"; "identity"; "gzip"; "deflate"; "zstd"].
    intros [|[|i]] d Hi Hin Hb s p Hbody; simpl in Hi; simplify_eq.
    + simpl in *. rewrite Hbody. simpl. done.
    + exfalso. simpl in Hin.
      repeat (apply elem_of_cons in Hin as [?|Hin]; [discriminate|]).
      by apply elem_of_nil in Hin.
  - reflexivity.
Defined.

Lemma Accept_Encoding_negotiation_witness :
  let cfg := Decode_config [] in
  let hdr : gmap string (list string) := {[ "Accept-Encoding" := ["gzip"] ]} in
  let s := toy_st hdr "POST" ["gzip"] "Gtest" in
  let s1 := set_w_Header (<["Accept-Encoding" := ["br, gzip, zstd"]]> hdr)
              (@set_Body toy (inr "test") s) in
  ∃ evs s' value,
    decode_steps cfg s evs s' ∧
    (called_decoders evs = [] → w s' = w s) ∧
    log (serve (Decode_handler cfg toy_next) s)
    = GetRequestHeader "Content-Encoding" :: evs ++
        [GetResponseHeader "Accept-Encoding";
         SetResponseHeader "Accept-Encoding" value; CallNext s1] ∧
    s1 = set_w_Header (<["Accept-Encoding" := [value]]> (w_Header (w s'))) s' ∧
    let prior := Header_Get (w_Header (w s')) "Accept-Encoding" in
    let fixed := ["br"; "gzip"; "zstd"] ++ map Encoding (decoders cfg) in
    (prior = "" → value = joinWithCommaSpace fixed) ∧
    (prior ≠ "" →
     ∃ l, value = joinWithCommaSpace l ∧ Sorted String.le l ∧ NoDup l ∧
          ∀ x, x ∈ l ↔ x ∈ splitEncodingHeader prior ∨ x ∈ fixed).
Proof.
  apply (@Accept_Encoding_negotiation toy (Decode_config []) toy_next).
  - intros X. reflexivity.
  - reflexivity.
  - apply list_elem_of_In. vm_compute. left. reflexivity.
Defined.

(** * Further properties of the package *)

(** ** The tokenizer and the joiner *)

Lemma Replacer_Replace_clean old s :
  old ∉ list_ascii_of_string s → Replacer_Replace old "" s = s.
Proof.
  induction s as [|c s IH]; simpl; [done|].
  intros Hnin. apply not_elem_of_cons in Hnin as [Hc Hs].
  destruct (Ascii.eqb_spec c old); [congruence|]. by rewrite IH.
Qed.

Lemma Replacer_Replace_app old a b :
  Replacer_Replace old "" (a +:+ b)
  = Replacer_Replace old "" a +:+ Replacer_Replace old "" b.
Proof.
  induction a as [|c a IH]; simpl; [done|].
  destruct (Ascii.eqb c old); simpl; by rewrite IH.
Qed.

Lemma strings_Split_clean sep t :
  sep ∉ list_ascii_of_string t → strings_Split t sep = [t].
Proof.
  induction t as [|c t IH]; simpl; [done|].
  intros Hnin. apply not_elem_of_cons in Hnin as [Hc Ht].
  destruct (Ascii.eqb_spec c sep); [congruence|]. by rewrite IH.
Qed.

Lemma strings_Split_app sep t rest :
  sep ∉ list_ascii_of_string t →
  strings_Split (t +:+ String sep rest) sep = t :: strings_Split rest sep.
Proof.
  induction t as [|c t IH]; simpl.
  { intros _. by rewrite Ascii.eqb_refl. }
  intros Hnin. apply not_elem_of_cons in Hnin as [Hc Ht].
  destruct (Ascii.eqb_spec c sep); [congruence|]. by rewrite IH.
Qed.

Lemma strings_Split_length s sep :
  length (strings_Split s sep)
  = S (length (filter (fun c => c = sep) (list_ascii_of_string s))).
Proof.
  induction s as [|c s IH]; simpl; [done|].
  destruct (Ascii.eqb_spec c sep) as [->|Hc].
  - rewrite filter_cons_True by done. simpl. by rewrite IH.
  - rewrite filter_cons_False by done.
    destruct (strings_Split s sep) as [|t ts] eqn:Hs; [|done].
    by apply strings_Split_nonempty in Hs.
Qed.

Lemma noSpace_Replace_joined ts :
  Forall clean_token ts →
  noSpace_Replace (joinWithCommaSpace ts) = String.concat "," ts.
Proof.
  unfold noSpace_Replace, joinWithCommaSpace, strings_Join.
  induction 1 as [|t ts [_ Ht] Hts IH]; [done|].
  destruct ts as [|t' ts].
  { simpl. by apply Replacer_Replace_clean. }
  change (String.concat ", " (t :: t' :: ts))
    with (t +:+ ", " +:+ String.concat ", " (t' :: ts)).
  change (String.concat "," (t :: t' :: ts))
    with (t +:+ "," +:+ String.concat "," (t' :: ts)).
  rewrite !Replacer_Replace_app, IH.
  by rewrite Replacer_Replace_clean.
Qed.

Lemma strings_Split_joined ts :
  Forall clean_token ts → ts ≠ [] →
  strings_Split (String.concat "," ts) ","%char = ts.
Proof.
  induction 1 as [|t ts [Ht _] Hts IH]; [done|]. intros _.
  destruct ts as [|t' ts].
  { simpl. by apply strings_Split_clean. }
  change (String.concat "," (t :: t' :: ts))
    with (t +:+ String ","%char (String.concat "," (t' :: ts))).
  rewrite strings_Split_app by done. by rewrite IH.
Qed.

Lemma splitEncodingHeader_joined (ts : list string) :
  Forall clean_token ts →
  joinWithCommaSpace ts ≠ "" →
  splitEncodingHeader (joinWithCommaSpace ts) = ts.
Proof.
  intros Hts Hne. unfold splitEncodingHeader.
  destruct (String.eqb_spec (joinWithCommaSpace ts) ""); [done|].
  rewrite noSpace_Replace_joined by done.
  apply strings_Split_joined; [done|]. by intros ->.
Qed.

(** X1: the tokenizer undoes the joiner.  A list of tokens free of commas
    and spaces, joined with a comma and a space into a non-empty string, is
    tokenized back into the same list. *)
Theorem splitEncodingHeader_joinWithCommaSpace (ts : list string) :
  Forall clean_token ts →
  joinWithCommaSpace ts ≠ "" →
  splitEncodingHeader (joinWithCommaSpace ts) = ts.
Proof. apply splitEncodingHeader_joined. Qed.

Lemma splitEncodingHeader_joinWithCommaSpace_witness :
  splitEncodingHeader (joinWithCommaSpace ["br"; "gzip"; "zstd"; "custom"])
  = ["br"; "gzip"; "zstd"; "custom"].
Proof.
  apply splitEncodingHeader_joinWithCommaSpace.
  - repeat constructor; intros Hin; simpl in Hin;
      repeat (apply elem_of_cons in Hin as [?|Hin]; [discriminate|]);
      by apply elem_of_nil in Hin.
  - discriminate.
Defined.

(** X2: a non-empty header value has one token more than it has commas,
    spaces or not; the empty value has none. *)
Theorem splitEncodingHeader_length (raw : string) :
  length (splitEncodingHeader raw)
  = if decide (raw = "") then 0 else S (commas raw).
Proof.
  unfold splitEncodingHeader, commas.
  destruct (String.eqb_spec raw "") as [->|Hraw]; [done|].
  rewrite decide_False by done.
  rewrite strings_Split_length. f_equal.
  unfold noSpace_Replace. rewrite Replacer_Replace_delete.
  rewrite list_filter_filter. f_equal.
  apply list_filter_iff. intros c. split; [by intros [-> _]|].
  intros ->. done.
Qed.

Lemma Replacer_Replace_all old s :
  Forall (fun c => c = old) (list_ascii_of_string s) →
  Replacer_Replace old "" s = "".
Proof.
  induction s as [|c s IH]; simpl; [done|].
  intros Hall. inversion Hall as [|? ? -> Hs]; subst.
  rewrite Ascii.eqb_refl. by apply IH.
Qed.

(** X3: a header value made of spaces only is not the empty value: it
    gives one token, the empty one. *)
Theorem splitEncodingHeader_blank (raw : string) :
  raw ≠ "" →
  Forall (fun c => c = " "%char) (list_ascii_of_string raw) →
  splitEncodingHeader raw = [""].
Proof.
  intros Hraw Hall. unfold splitEncodingHeader, noSpace_Replace.
  destruct (String.eqb_spec raw ""); [done|].
  by rewrite Replacer_Replace_all.
Qed.

Lemma splitEncodingHeader_blank_witness :
  splitEncodingHeader "   " = [""] ∧ splitEncodingHeader "" = [].
Proof.
  split; [|reflexivity].
  apply splitEncodingHeader_blank; [discriminate | repeat constructor].
Defined.

(** ** The Accept-Encoding merge, further *)

Lemma splitEncodingHeader_clean raw : Forall clean_token (splitEncodingHeader raw).
Proof.
  unfold splitEncodingHeader. destruct (String.eqb raw ""); [constructor|].
  eapply Forall_impl; [apply strings_Split_bytes|].
  intros t [Hsep Hin]. split; [done|]. intros Hsp%Hin.
  unfold noSpace_Replace in Hsp. rewrite Replacer_Replace_delete in Hsp.
  by apply list_elem_of_filter in Hsp as [? _].
Qed.

Lemma splitEncodingHeader_nonempty raw : raw ≠ "" → splitEncodingHeader raw ≠ [].
Proof.
  intros Hraw. unfold splitEncodingHeader.
  destruct (String.eqb_spec raw ""); [done|]. apply strings_Split_nonempty.
Qed.

Lemma mergeAcceptEncoding_listing (List : gset string → list string) raw adds :
  (∀ X, List X ≡ₚ elements X) →
  raw ≠ "" →
  mergeAcceptEncoding List raw adds
  = joinWithCommaSpace (sorted_union (splitEncodingHeader raw) adds).
Proof.
  intros HList Hraw. unfold mergeAcceptEncoding, sorted_union.
  pose proof (splitEncodingHeader_nonempty raw Hraw).
  destruct (splitEncodingHeader raw) as [|t ts]; [done|].
  simpl. f_equal. apply sort_Strings_Permutation_eq, HList.
Qed.

Lemma sorted_union_same_union current current' adds adds' :
  (∀ x, x ∈ current ∨ x ∈ adds ↔ x ∈ current' ∨ x ∈ adds') →
  sorted_union current adds = sorted_union current' adds'.
Proof.
  intros Hu. unfold sorted_union.
  assert ((list_to_set current ∪ list_to_set adds : gset string)
          = list_to_set current' ∪ list_to_set adds') as ->; [|done].
  apply set_eq. intros x. by rewrite !elem_of_union, !elem_of_list_to_set.
Qed.

(** X4: with a prior header, the merged value depends on the tokens only
    as sets: neither the order nor the repetitions in the prior value, nor
    the order in which the decoders were registered, nor the order the
    runtime lists the set in, change it. *)
Theorem mergeAcceptEncoding_same_sets
    (List1 List2 : gset string → list string) (raw raw' : string)
    (adds adds' : list string) :
  (∀ X, List1 X ≡ₚ elements X) →
  (∀ X, List2 X ≡ₚ elements X) →
  raw ≠ "" → raw' ≠ "" →
  (∀ x, x ∈ splitEncodingHeader raw ↔ x ∈ splitEncodingHeader raw') →
  (∀ x, x ∈ adds ↔ x ∈ adds') →
  mergeAcceptEncoding List1 raw adds = mergeAcceptEncoding List2 raw' adds'.
Proof.
  intros H1 H2 Hraw Hraw' Hc Ha.
  rewrite !mergeAcceptEncoding_listing by done.
  f_equal. apply sorted_union_same_union. intros x. by rewrite Hc, Ha.
Qed.

Lemma mergeAcceptEncoding_same_sets_witness :
  mergeAcceptEncoding elements "gzip, deflate" ["br"; "gzip"; "zstd"]
  = mergeAcceptEncoding (fun X => reverse (elements X)) "deflate,gzip,gzip"
      ["zstd"; "br"; "gzip"].
Proof.
  apply mergeAcceptEncoding_same_sets.
  - intros X. reflexivity.
  - intros X. apply reverse_Permutation.
  - discriminate.
  - discriminate.
  - intros x. change (splitEncodingHeader "gzip, deflate") with ["gzip"; "deflate"].
    change (splitEncodingHeader "deflate,gzip,gzip") with ["deflate"; "gzip"; "gzip"].
    rewrite !elem_of_cons, !elem_of_nil. tauto.
  - intros x. rewrite !elem_of_cons, !elem_of_nil. tauto.
Defined.

Lemma joinWithCommaSpace_empty l :
  joinWithCommaSpace l = "" → Forall (fun t => t = "") l.
Proof.
  unfold joinWithCommaSpace, strings_Join.
  destruct l as [|t [|t' l]]; simpl.
  - constructor.
  - intros ->. by repeat constructor.
  - destruct t; simpl; discriminate.
Qed.

(** X5: with a prior header, merging is idempotent: the value the merge
    wrote, merged again with the same supported encodings (tokens with no
    comma and no space, none empty), comes back unchanged. *)
Theorem mergeAcceptEncoding_idempotent
    (List1 List2 : gset string → list string) (raw : string) (adds : list string) :
  (∀ X, List1 X ≡ₚ elements X) →
  (∀ X, List2 X ≡ₚ elements X) →
  raw ≠ "" →
  Forall (fun t => clean_token t ∧ t ≠ "") adds →
  mergeAcceptEncoding List2 (mergeAcceptEncoding List1 raw adds) adds
  = mergeAcceptEncoding List1 raw adds.
Proof.
  intros H1 H2 Hraw Hadds.
  rewrite (mergeAcceptEncoding_listing List1) by done.
  set (l := sorted_union (splitEncodingHeader raw) adds).
  destruct (sorted_union_spec (splitEncodingHeader raw) adds) as (_ & _ & Hin).
  fold l in Hin.
  assert (Forall clean_token l) as Hclean.
  { apply Forall_forall. intros x [Hx|Hx]%Hin.
    - pose proof (splitEncodingHeader_clean raw) as Hc.
      rewrite Forall_forall in Hc. by apply Hc.
    - rewrite Forall_forall in Hadds. by apply Hadds. }
  destruct (decide (joinWithCommaSpace l = "")) as [Hempty|Hne].
  - rewrite Hempty. unfold mergeAcceptEncoding. simpl.
    destruct adds as [|t adds]; [done|]. exfalso.
    apply joinWithCommaSpace_empty in Hempty. rewrite Forall_forall in Hempty.
    inversion Hadds as [|? ? [_ Ht] _]; subst. apply Ht, Hempty, Hin.
    right. by left.
  - rewrite (mergeAcceptEncoding_listing List2) by done.
    rewrite splitEncodingHeader_joined by done.
    f_equal. apply sorted_union_same_union.
    intros x. rewrite Hin. tauto.
Qed.

Lemma mergeAcceptEncoding_idempotent_witness :
  mergeAcceptEncoding (fun X => reverse (elements X))
    (mergeAcceptEncoding elements "gzip, deflate" ["br"; "gzip"; "zstd"; "custom"])
    ["br"; "gzip"; "zstd"; "custom"]
  = mergeAcceptEncoding elements "gzip, deflate" ["br"; "gzip"; "zstd"; "custom"].
Proof.
  apply mergeAcceptEncoding_idempotent.
  - intros X. reflexivity.
  - intros X. apply reverse_Permutation.
  - discriminate.
  - repeat constructor; try discriminate; intros Hin; simpl in Hin;
      repeat (apply elem_of_cons in Hin as [?|Hin]; [discriminate|]);
      by apply elem_of_nil in Hin.
Defined.

(** ** The handler, further *)

Section Handler.
Context {E : Env}.
Implicit Types (cfg : config) (next : Handler) (σ : World) (s : St) (v : string).

Lemma served_calls cfg next s σ :
  served cfg next s σ →
  (∃ s1, next_calls (log σ) = [s1] ∧ errHandler_calls (log σ) = [] ∧
         st σ = next s1) ∨
  (∃ s1 e, next_calls (log σ) = [] ∧ st σ = snd (fail_call cfg s1 e) ∧
           errHandler_calls (log σ) = errHandler_calls [fst (fail_call cfg s1 e)]).
Proof.
  destruct 1 as [_ | evs s' _ Hst | pre s' ev s1 e _ Hst Hstep]; simpl.
  - left. by exists s.
  - left. destruct (decode_steps_quiet _ _ _ _ Hst) as (Hq1 & Hq2 & _ & _).
    exists (after_negotiation cfg s').
    unfold next_calls, errHandler_calls in *.
    rewrite !omap_app, Hq1, Hq2. done.
  - right. destruct (decode_steps_quiet _ _ _ _ Hst) as (Hq1 & Hq2 & _ & _).
    destruct (decode_step_quiet _ _ _ _ _ Hstep) as (Hs1 & Hs2 & _).
    exists s1, e.
    unfold next_calls, errHandler_calls in *.
    rewrite !omap_app, Hq1, Hq2. simpl in *.
    unfold fail_call. split_and!; [|done|].
    + destruct ev; simplify_eq/=; by destruct (errHandler cfg).
    + destruct ev; simplify_eq/=; done.
Qed.

(** X6: every request is answered by exactly one call: either the next
    handler is called once and the error handler not at all, or the error
    handler is called once and the next handler not at all; the writer and
    the request are then as that call left them. *)
Theorem served_by_exactly_one cfg eh next s :
  errHandler cfg = Some eh →
  let σ := serve (Decode_handler cfg next) s in
  (∃ s1, next_calls (log σ) = [s1] ∧ errHandler_calls (log σ) = [] ∧
         st σ = next s1) ∨
  (∃ s1 e, next_calls (log σ) = [] ∧ errHandler_calls (log σ) = [(s1, e)] ∧
           st σ = eh s1 e).
Proof.
  intros Heh σ.
  destruct (served_calls _ _ _ _ (Decode_handler_served cfg next s))
    as [Hok | (s1 & e & Hn & Hst & He)]; [by left|].
  right. exists s1, e. fold σ in Hn, Hst, He.
  unfold fail_call in *. rewrite Heh in *. done.
Qed.

Lemma decode_step_builtin_frame cfg s ev s' res :
  decode_step cfg s ev s' res → called_decoders [ev] = [] →
  w s' = w s ∧ Method (r s') = Method (r s) ∧ Header (r s') = Header (r s).
Proof. destruct 1; simpl; done. Qed.

Lemma called_decoders_app evs evs' :
  called_decoders (evs ++ evs') = called_decoders evs ++ called_decoders evs'.
Proof. apply omap_app. Qed.

(** X7: while no custom decoder is called, the middleware changes nothing
    but the body of the request and the Accept-Encoding header of the
    response.  The next handler gets the method and the headers of the
    request as they came (Content-Encoding stays), and a writer that
    differs from the incoming one at Accept-Encoding only; the error
    handler gets the incoming writer itself. *)
Theorem builtin_steps_frame cfg next s :
  let σ := serve (Decode_handler cfg next) s in
  called_decoders (log σ) = [] →
  (∀ s1, s1 ∈ next_calls (log σ) →
     Method (r s1) = Method (r s) ∧ Header (r s1) = Header (r s) ∧
     w_Code (w s1) = w_Code (w s) ∧ w_Written (w s1) = w_Written (w s) ∧
     ∀ k, k ≠ "Accept-Encoding" → w_Header (w s1) !! k = w_Header (w s) !! k) ∧
  (∀ s1 e, (s1, e) ∈ errHandler_calls (log σ) →
     w s1 = w s ∧ Method (r s1) = Method (r s) ∧ Header (r s1) = Header (r s)).
Proof.
  cbv zeta.
  destruct (Decode_handler_served cfg next s)
    as [_ | evs s' _ Hst | pre s' ev s1' e' _ Hst Hstep]; simpl; intros Hcalls.
  - split.
    + intros s1 Hin. apply list_elem_of_singleton in Hin. by subst.
    + intros s1 e Hin. by apply elem_of_nil in Hin.
  - rewrite called_decoders_app in Hcalls. apply app_eq_nil in Hcalls as [Hc _].
    destruct (decode_steps_builtin_frame _ _ _ _ Hst Hc) as (Hw & Hm & Hh).
    destruct (decode_steps_quiet _ _ _ _ Hst) as (Hq1 & Hq2 & _ & _).
    unfold next_calls, errHandler_calls in *. rewrite !omap_app, Hq1, Hq2. simpl.
    split.
    + intros s1 Hin. apply list_elem_of_singleton in Hin. subst s1.
      simpl. rewrite Hw, Hm, Hh. split_and!; try done.
      intros k Hk. unfold Header_Set. by rewrite lookup_insert_ne.
    + intros s1 e Hin. by apply elem_of_nil in Hin.
  - rewrite called_decoders_app in Hcalls. apply app_eq_nil in Hcalls as [Hc Hc'].
    assert (called_decoders [ev] = []) as Hev.
    { change [ev; (fail_call cfg s1' e').1] with ([ev] ++ [(fail_call cfg s1' e').1]) in Hc'.
      rewrite called_decoders_app in Hc'. by apply app_eq_nil in Hc' as [? _]. }
    destruct (decode_steps_builtin_frame _ _ _ _ Hst Hc) as (Hw & Hm & Hh).
    destruct (decode_step_builtin_frame _ _ _ _ _ Hstep Hev) as (Hw' & Hm' & Hh').
    destruct (decode_steps_quiet _ _ _ _ Hst) as (Hq1 & Hq2 & _ & _).
    destruct (decode_step_quiet _ _ _ _ _ Hstep) as (Hs1 & Hs2 & _).
    unfold next_calls, errHandler_calls in *. rewrite !omap_app, Hq1, Hq2. simpl in *.
    split.
    + intros s1 Hin. exfalso. unfold fail_call in Hin.
      destruct ev; simplify_eq/=; destruct (errHandler cfg); simpl in Hin;
        by apply elem_of_nil in Hin.
    + intros s1 e Hin. unfold fail_call in Hin.
      assert (s1 = s1') as ->.
      { destruct ev; simplify_eq/=; destruct (errHandler cfg); simpl in Hin;
          try (by apply elem_of_nil in Hin);
          apply list_elem_of_singleton in Hin; congruence. }
      split_and!; congruence.
Qed.

Lemma codec_calls_app evs evs' :
  codec_calls (evs ++ evs') = codec_calls evs ++ codec_calls evs'.
Proof. apply omap_app. Qed.

Lemma fail_call_no_calls cfg s1 e :
  codec_calls [fst (fail_call cfg s1 e)] = [] ∧
  called_decoders [fst (fail_call cfg s1 e)] = [] ∧
  next_calls [fst (fail_call cfg s1 e)] = [].
Proof. unfold fail_call. by destruct (errHandler cfg). Qed.

Lemma rangeDecoders_codec_calls cfg v ds :
  ∀ i σ, ∃ evs,
    log (snd (rangeDecoders cfg v i ds σ)) = log σ ++ evs ∧ codec_calls evs = [].
Proof.
  induction ds as [|d rest IH]; intros i σ; simpl.
  { exists []. by rewrite app_nil_r. }
  destruct (String.eqb v (Encoding d)); [|apply IH].
  unfold bind. rewrite call_Handler_run.
  destruct (snd (Decoder_Handler d (st σ))) as [e|].
  - rewrite call_errHandler_run. simpl.
    eexists [CallDecoder i (st σ); _]. split; [by rewrite <- app_assoc|].
    unfold fail_call. by destruct (errHandler cfg).
  - destruct (IH (S i) (mkWorld (fst (Decoder_Handler d (st σ)))
                          (log σ ++ [CallDecoder i (st σ)]))) as (evs & Hlog & Hc).
    exists (CallDecoder i (st σ) :: evs). split; [|done].
    rewrite Hlog. simpl. by rewrite <- app_assoc.
Qed.

Lemma decodeToken_calls cfg v σ :
  ∃ evs,
    log (snd (decodeToken cfg v σ)) = log σ ++ evs ∧
    codec_calls evs = option_list (token_codec v) ∧
    called_decoders evs `prefix_of` (if is_builtin v then [] else matching_decoders cfg v) ∧
    (fst (decodeToken cfg v σ) = Continue →
     called_decoders evs = if is_builtin v then [] else matching_decoders cfg v).
Proof.
  unfold decodeToken, token_codec, is_builtin.
  destruct (String.eqb v "br") eqn:Hbr; simpl.
  { by eexists [_]. }
  destruct (String.eqb v "gzip" || String.eqb v "x-gzip") eqn:Hgz; simpl.
  { unfold bind. rewrite decompressGzip_run.
    destruct (gzip_NewReader (Body (r (st σ)))) as [e|gr].
    - rewrite call_errHandler_run. simpl. eexists [_; _].
      split; [by rewrite <- app_assoc|].
      unfold fail_call. by destruct (errHandler cfg).
    - by eexists [_]. }
  destruct (String.eqb v "zstd") eqn:Hzs; simpl.
  { unfold bind. rewrite decompressZstd_run.
    destruct (zstd_NewReader (Body (r (st σ))) (dopts cfg)) as [e|zr].
    - rewrite call_errHandler_run. simpl. eexists [_; _].
      split; [by rewrite <- app_assoc|].
      unfold fail_call. by destruct (errHandler cfg).
    - by eexists [_]. }
  destruct (String.eqb v "" || String.eqb v "identity") eqn:Hid; simpl.
  { exists []. by rewrite app_nil_r. }
  destruct (rangeDecoders_calls cfg v (decoders cfg) 0 σ [] eq_refl eq_refl)
    as (evs & Hlog & Hpre & Hall).
  destruct (rangeDecoders_codec_calls cfg v (decoders cfg) 0 σ) as (evs' & Hlog' & Hc).
  assert (evs' = evs) as -> by (rewrite Hlog in Hlog'; by apply app_inv_head in Hlog').
  by exists evs.
Qed.

Lemma runTokens_calls cfg vs :
  ∀ σ, ∃ evs,
    log (snd (runTokens cfg vs σ)) = log σ ++ evs ∧
    codec_calls evs `prefix_of` omap token_codec vs ∧
    called_decoders evs `prefix_of` expected_decoders cfg vs ∧
    (fst (runTokens cfg vs σ) = Continue →
     codec_calls evs = omap token_codec vs ∧
     called_decoders evs = expected_decoders cfg vs).
Proof.
  induction vs as [|v vs IH]; intros σ; simpl.
  { exists []. by rewrite app_nil_r. }
  assert (omap token_codec (v :: vs) = option_list (token_codec v) ++ omap token_codec vs)
    as Homap by (simpl; by destruct (token_codec v)).
  simpl in Homap. rewrite Homap. unfold expected_decoders. simpl.
  fold (expected_decoders cfg vs).
  destruct (decodeToken_calls cfg v σ) as (evs1 & Hlog1 & Hc1 & Hp1 & Hall1).
  unfold bind. destruct (decodeToken cfg v σ) as [[] σ1]; simpl in *.
  - destruct (IH σ1) as (evs2 & Hlog2 & Hc2 & Hp2 & Hall2).
    exists (evs1 ++ evs2). rewrite codec_calls_app, called_decoders_app, Hc1.
    rewrite (Hall1 eq_refl). split_and!.
    + by rewrite Hlog2, Hlog1, <- app_assoc.
    + by apply prefix_app.
    + by apply prefix_app.
    + intros Hf. destruct (Hall2 Hf) as [-> ->]. done.
  - exists evs1. rewrite Hc1. split_and!; try done.
    + by apply prefix_app_r.
    + by apply prefix_app_r.
Qed.

(** X8: what a run opens and calls is what the header names, last token
    first.  The codec constructors opened are a prefix of the codecs of the
    tokens read from the last to the first, and the custom decoders called
    a prefix of the decoders registered for those tokens; when the next
    handler is reached, they are all of them. *)
Theorem calls_follow_reversed_tokens cfg next s :
  let vs := rev (splitEncodingHeader (Header_Get (Header (r s)) "Content-Encoding")) in
  let σ := serve (Decode_handler cfg next) s in
  passes_through (r s) = false →
  codec_calls (log σ) `prefix_of` omap token_codec vs ∧
  called_decoders (log σ) `prefix_of` expected_decoders cfg vs ∧
  (next_calls (log σ) ≠ [] →
   codec_calls (log σ) = omap token_codec vs ∧
   called_decoders (log σ) = expected_decoders cfg vs).
Proof.
  intros vs σ Hp. subst σ. rewrite Decode_handler_unfold by done. fold vs.
  destruct (runTokens_calls cfg vs (mkWorld s [GetRequestHeader "Content-Encoding"]))
    as (evs & Hlog & Hc & Hd & Hall).
  pose proof (runTokens_outcome cfg vs (mkWorld s [GetRequestHeader "Content-Encoding"]))
    as Hout.
  destruct (runTokens cfg vs _) as [f σ1]. simpl in *.
  inversion Hout as [evs' s' Hst | pre s' ev s1 e Hst Hstep]; subst; simpl in *.
  - destruct (Hall eq_refl) as [Hc' Hd']. simplify_eq.
    rewrite codec_calls_app, called_decoders_app. simpl.
    rewrite !app_nil_r. by rewrite Hc', Hd'.
  - simplify_eq. split_and!; [done | done |].
    intros Hnext. exfalso. apply Hnext.
    destruct (decode_steps_quiet _ _ _ _ Hst) as (_ & Hq & _ & _).
    destruct (decode_step_quiet _ _ _ _ _ Hstep) as (_ & Hq' & _).
    destruct (fail_call_no_calls cfg s1 e) as (_ & _ & Hq'').
    unfold next_calls in *. rewrite omap_app, Hq. simpl in *.
    destruct ev; simplify_eq/=; done.
Qed.

Lemma Decode_handler_plain_unfold cfg next s :
  passes_through (r s) = false →
  serve (Decode_handler_plain cfg next) s
  = let (f, σ1) :=
      runTokens cfg (rev (splitEncodingHeader (Header_Get (Header (r s)) "Content-Encoding")))
        (mkWorld s [GetRequestHeader "Content-Encoding"]) in
    match f with
    | Return => σ1
    | Continue => mkWorld (next (st σ1)) (log σ1 ++ [CallNext (st σ1)])
    end.
Proof.
  intros Hm. unfold serve, Decode_handler_plain, passes_through in *.
  unfold bind at 1. unfold get_st at 1. simpl. rewrite Hm.
  unfold bind at 1. unfold request_Header_Get, bind, get_st, emit, ret at 1. simpl.
  rewrite tokenLoop_rev.
  by destruct (runTokens cfg _ _) as [[] σ1].
Qed.

(** X9: the handler of [src/contentencoding.go] and the handler of the
    current file differ by the Accept-Encoding step alone.  On a GET or
    HEAD request, and whenever the current handler does not reach the next
    handler, the two runs are the same.  When it does reach it, the two
    runs made the same decode steps; the older one then calls the next
    handler on what the steps left, the current one first reads and sets
    Accept-Encoding. *)
Theorem plain_handler_agrees cfg next s :
  let σ0 := serve (Decode_handler_plain cfg next) s in
  let σ := serve (Decode_handler cfg next) s in
  (passes_through (r s) = true → σ0 = σ) ∧
  (next_calls (log σ) = [] → σ0 = σ) ∧
  (passes_through (r s) = false → ∀ s1, s1 ∈ next_calls (log σ) →
   ∃ evs s',
     decode_steps cfg s evs s' ∧ s1 = after_negotiation cfg s' ∧
     log σ = GetRequestHeader "Content-Encoding" :: evs ++
               [GetResponseHeader "Accept-Encoding";
                SetResponseHeader "Accept-Encoding" (negotiated cfg s');
                CallNext s1] ∧
     log σ0 = GetRequestHeader "Content-Encoding" :: evs ++ [CallNext s'] ∧
     st σ0 = next s' ∧ st σ = next s1).
Proof.
  cbv zeta.
  destruct (passes_through (r s)) eqn:Hp.
  { assert (serve (Decode_handler_plain cfg next) s = serve (Decode_handler cfg next) s)
      as Heq.
    { transitivity (mkWorld (next s) [CallNext s]); [|symmetry];
        unfold serve, Decode_handler_plain, Decode_handler, passes_through in *;
        unfold bind at 1; unfold get_st at 1; simpl; by rewrite Hp. }
    by split_and!. }
  rewrite Decode_handler_plain_unfold, Decode_handler_unfold by done.
  pose proof (runTokens_outcome cfg
    (rev (splitEncodingHeader (Header_Get (Header (r s)) "Content-Encoding")))
    (mkWorld s [GetRequestHeader "Content-Encoding"])) as Hout.
  destruct (runTokens cfg _ _) as [f σ1].
  inversion Hout as [evs s' Hst | pre s' ev s1' e Hst Hstep]; subst; simpl in *.
  - destruct (decode_steps_quiet _ _ _ _ Hst) as (_ & Hq & _ & _).
    unfold next_calls in *. split_and!; [done | |].
    + intros Hnone. rewrite !omap_app, Hq in Hnone. simpl in Hnone. done.
    + intros _ s1 Hin. rewrite !omap_app, Hq in Hin. simpl in Hin.
      apply list_elem_of_singleton in Hin. subst s1.
      exists evs, s'. by split_and!.
  - split_and!; [done | done |].
    intros _ s1 Hin. exfalso.
    destruct (decode_steps_quiet _ _ _ _ Hst) as (_ & Hq & _ & _).
    destruct (decode_step_quiet _ _ _ _ _ Hstep) as (_ & Hq' & _).
    destruct (fail_call_no_calls cfg s1' e) as (_ & _ & Hq'').
    unfold next_calls in *. rewrite omap_app, Hq in Hin. simpl in *.
    unfold fail_call in *.
    destruct ev; simplify_eq/=; destruct (errHandler cfg); simpl in *;
      by apply elem_of_nil in Hin.
Qed.

Lemma decode_steps_no_panic cfg s evs s' :
  decode_steps cfg s evs s' → PanicNilFunc ∉ evs.
Proof.
  induction 1 as [|s ev s' evs s'' Hstep _ IH]; [by intros ?%elem_of_nil|].
  intros [Hev|Hin]%elem_of_cons; [|done]. subst ev. inversion Hstep.
Qed.

(** X10: a handler built by [Decode] from options of the three exported
    constructors never calls a nil error handler, whatever the options and
    the request. *)
Theorem Decode_never_calls_nil opts next s :
  Forall exported_option opts →
  PanicNilFunc ∉ log (serve (Decode opts next) s).
Proof.
  intros [eh Heh]%Decode_config_errHandler. unfold Decode.
  destruct (Decode_handler_served (Decode_config opts) next s)
    as [_ | evs s' _ Hst | pre s' ev s1 e _ Hst Hstep]; simpl.
  - by intros ?%list_elem_of_singleton.
  - intros [?|Hin]%elem_of_cons; [done|].
    apply elem_of_app in Hin as [Hin|Hin]; [by eapply decode_steps_no_panic|].
    repeat (apply elem_of_cons in Hin as [?|Hin]; [done|]).
    by apply elem_of_nil in Hin.
  - intros [?|Hin]%elem_of_cons; [done|].
    apply elem_of_app in Hin as [Hin|Hin]; [by eapply decode_steps_no_panic|].
    unfold fail_call in Hin. rewrite Heh in Hin. simpl in Hin.
    apply elem_of_cons in Hin as [Hev|Hin]; [subst ev; inversion Hstep|].
    by apply list_elem_of_singleton in Hin.
Qed.

Lemma fold_options_keep {A} (field : config → A) (opts : list Option) cfg :
  Forall (fun opt => ∀ c, field (opt c) = field c) opts →
  field (fold_left (fun c opt => opt c) opts cfg) = field cfg.
Proof.
  intros Hopts. revert cfg.
  induction Hopts as [|opt opts Hopt _ IH]; intros cfg; simpl; [done|].
  by rewrite IH.
Qed.

Lemma Decode_config_app opts1 opt opts2 :
  Decode_config (opts1 ++ opt :: opts2)
  = fold_left (fun c o => o c) opts2 (opt (Decode_config opts1)).
Proof.
  unfold Decode_config. by rewrite app_assoc, fold_left_app.
Qed.

(** X11: for each setting the last option that sets it wins.  After a
    [WithDecoder], a [WithDOptions] or a [WithErrorHandler], options that
    leave that setting alone do not change it, and nothing an earlier
    option set for it is kept; a [WithErrorHandler(nil)] puts the default
    handler back. *)
Theorem Decode_config_last_wins (opts1 opts2 : list Option) :
  (∀ ds, Forall (fun opt => ∀ c, decoders (opt c) = decoders c) opts2 →
         decoders (Decode_config (opts1 ++ WithDecoder ds :: opts2)) = ds) ∧
  (∀ ds, Forall (fun opt => ∀ c, dopts (opt c) = dopts c) opts2 →
         dopts (Decode_config (opts1 ++ WithDOptions ds :: opts2)) = ds) ∧
  (∀ eh, Forall (fun opt => ∀ c, errHandler (opt c) = errHandler c) opts2 →
         errHandler (Decode_config (opts1 ++ WithErrorHandler eh :: opts2))
         = Some (default DefaultErrorHandler eh)).
Proof.
  split_and!; intros x Hkeep; rewrite Decode_config_app;
    rewrite (fold_options_keep _ _ _ Hkeep); [done | done |].
  by destruct x.
Qed.

(** X12: the default policy.  When no option sets the error handler, a
    failed decode step on a writer whose status is not written yet ends
    with status 400 and the error text and a newline written; the request
    is as the failed step left it and the next handler is not called. *)
Theorem default_policy_bad_request opts next s s1 e :
  Forall (fun opt => ∀ c, errHandler (opt c) = errHandler c) opts →
  (s1, e) ∈ errHandler_calls (log (serve (Decode opts next) s)) →
  w_Code (w s1) = None →
  let σ := serve (Decode opts next) s in
  w_Code (w (st σ)) = Some 400 ∧
  w_Written (w (st σ)) = w_Written (w s1) +:+ error_Error e +:+ String "010"%char "" ∧
  r (st σ) = r s1 ∧
  next_calls (log σ) = [].
Proof.
  intros Hkeep Hin Hcode σ. subst σ. unfold Decode in *.
  assert (errHandler (Decode_config opts) = Some DefaultErrorHandler) as Heh.
  { unfold Decode_config. simpl.
    by rewrite (fold_options_keep errHandler opts _ Hkeep). }
  destruct (served_calls _ _ _ _ (Decode_handler_served (Decode_config opts) next s))
    as [(s0 & _ & Herrs & _) | (s0 & e0 & Hn & Hst & Herrs)].
  { rewrite Herrs in Hin. by apply elem_of_nil in Hin. }
  unfold fail_call in *. rewrite Heh in *. simpl in *.
  rewrite Herrs in Hin. apply list_elem_of_singleton in Hin. simplify_eq.
  rewrite Hst. unfold DefaultErrorHandler, http_Error, StatusBadRequest. simpl.
  by rewrite Hcode.
Qed.

Lemma runTokens_lazy cfg vs :
  Forall (fun v => v = "br" ∨ skipped cfg v) vs →
  ∀ σ, ∃ evs σ1,
    runTokens cfg vs σ = (Continue, σ1) ∧
    log σ1 = log σ ++ evs ∧
    errHandler_calls evs = [] ∧ next_calls evs = [] ∧
    Body (r (st σ1))
    = Nat.iter (length (filter (fun v => v = "br") vs)) brotli_NewReader
        (Body (r (st σ))).
Proof.
  induction 1 as [|v vs Hv _ IH]; intros σ; simpl.
  { exists [], σ. by rewrite app_nil_r. }
  unfold bind. destruct Hv as [-> | Hskip].
  - change (decodeToken cfg "br" σ) with (bind decompressBrotli (fun _ => ret Continue) σ).
    unfold bind. rewrite decompressBrotli_run. unfold ret.
    destruct (IH (mkWorld (set_Body (brotli_NewReader (Body (r (st σ)))) (st σ))
                   (log σ ++ [CallNewReader Brotli (Body (r (st σ)))])))
      as (evs & σ1 & Hrun & Hlog & He & Hn & Hb).
    exists (CallNewReader Brotli (Body (r (st σ))) :: evs), σ1.
    rewrite filter_cons_True by done. simpl in *.
    split_and!; try done.
    + by rewrite Hlog, <- app_assoc.
    + rewrite Hb. symmetry. exact (Nat.iter_succ_r _ brotli_NewReader _).
  - rewrite decodeToken_skipped by done.
    destruct (IH σ) as (evs & σ1 & Hrun & Hlog & He & Hn & Hb).
    exists evs, σ1. split_and!; try done.
    destruct (decide (v = "br")) as [->|Hne]; [|by rewrite filter_cons_False].
    exfalso. destruct Hskip as [? | [? | [Hb' _]]]; done.
Qed.

Lemma count_rev (P : string → Prop) `{∀ x, Decision (P x)} (vs : list string) :
  length (filter P (rev vs)) = length (filter P vs).
Proof.
  induction vs as [|v vs IH]; simpl; [done|].
  rewrite filter_app, length_app, IH.
  destruct (decide (P v)).
  - rewrite (filter_cons_True P v vs), (filter_cons_True P v []) by done.
    simpl. lia.
  - rewrite (filter_cons_False P v vs), (filter_cons_False P v []) by done.
    simpl. lia.
Qed.

(** X13: brotli is opened lazily, so a request whose tokens are [br] or
    tokens the loop passes over always reaches the next handler, corrupt
    stream or not: the error handler is not called, and the body the next
    handler gets is the incoming one wrapped once per [br] token. *)
Theorem br_request_reaches_next cfg next s :
  let vs := splitEncodingHeader (Header_Get (Header (r s)) "Content-Encoding") in
  let σ := serve (Decode_handler cfg next) s in
  passes_through (r s) = false →
  Forall (fun v => v = "br" ∨ skipped cfg v) vs →
  errHandler_calls (log σ) = [] ∧
  ∃ s1, next_calls (log σ) = [s1] ∧
        Body (r s1)
        = Nat.iter (length (filter (fun v => v = "br") vs)) brotli_NewReader
            (Body (r s)).
Proof.
  intros vs σ Hp Hvs. subst σ. rewrite Decode_handler_unfold by done. fold vs.
  destruct (runTokens_lazy cfg (rev vs) (Forall_rev Hvs)
              (mkWorld s [GetRequestHeader "Content-Encoding"]))
    as (evs & σ1 & Hrun & Hlog & He & Hn & Hb).
  rewrite Hrun. simpl in *. rewrite Hlog.
  unfold errHandler_calls, next_calls in *. simpl.
  rewrite !omap_app, He, Hn. simpl. split; [done|].
  eexists. split; [reflexivity|]. simpl. rewrite Hb.
  by rewrite count_rev.
Qed.

Lemma supported_clean cfg :
  Forall clean_token (map Encoding (decoders cfg)) →
  Forall clean_token (supported cfg).
Proof.
  intros Hds. unfold supported. apply Forall_app. split; [|done].
  repeat constructor; intros Hin; simpl in Hin;
    repeat (apply elem_of_cons in Hin as [?|Hin]; [discriminate|]);
    by apply elem_of_nil in Hin.
Qed.

Lemma negotiated_tokens cfg s' t :
  (∀ X, strset_List X ≡ₚ elements X) →
  Forall clean_token (map Encoding (decoders cfg)) →
  t ∈ supported cfg
  ∨ t ∈ splitEncodingHeader (Header_Get (w_Header (w s')) "Accept-Encoding") →
  t ∈ splitEncodingHeader (negotiated cfg s').
Proof.
  intros HList Hclean%supported_clean Ht. unfold negotiated.
  assert ("br" ∈ supported cfg) as Hbr.
  { unfold supported. apply elem_of_app. left. apply elem_of_cons. by left. }
  destruct (String.eqb_spec (Header_Get (w_Header (w s')) "Accept-Encoding") "")
    as [Hprior|Hprior].
  - rewrite splitEncodingHeader_joined; [| done |].
    + destruct Ht as [?|Ht]; [done|]. rewrite Hprior in Ht.
      by apply elem_of_nil in Ht.
    + intros Hempty%joinWithCommaSpace_empty. rewrite Forall_forall in Hempty.
      by specialize (Hempty _ Hbr).
  - rewrite mergeAcceptEncoding_listing by done.
    destruct (sorted_union_spec
                (splitEncodingHeader (Header_Get (w_Header (w s')) "Accept-Encoding"))
                (supported cfg)) as (_ & _ & Hin).
    rewrite splitEncodingHeader_joined.
    + apply Hin. tauto.
    + apply Forall_forall. intros x [Hx|Hx]%Hin.
      * pose proof (splitEncodingHeader_clean
                      (Header_Get (w_Header (w s')) "Accept-Encoding")) as Hc.
        rewrite Forall_forall in Hc. by apply Hc.
      * rewrite Forall_forall in Hclean. by apply Hclean.
    + intros Hempty%joinWithCommaSpace_empty. rewrite Forall_forall in Hempty.
      assert ("br" = "") as Habs; [|done]. apply Hempty, Hin. by right.
Qed.

(** X14: the Accept-Encoding the next handler sees always names everything
    the middleware decodes, and loses nothing an earlier middleware named.
    With custom tokens free of commas and spaces, every supported encoding,
    and every token of the value [Header.Get] found before, is a token of
    the value the writer carries when the next handler is called. *)
Theorem Accept_Encoding_covers cfg next s s1 t :
  (∀ X, strset_List X ≡ₚ elements X) →
  Forall clean_token (map Encoding (decoders cfg)) →
  s1 ∈ next_calls (log (serve (Decode_handler cfg next) s)) →
  passes_through (r s) = false →
  (t ∈ ["br"; "gzip"; "zstd"] ++ map Encoding (decoders cfg) →
   t ∈ splitEncodingHeader (Header_Get (w_Header (w s1)) "Accept-Encoding")) ∧
  (called_decoders (log (serve (Decode_handler cfg next) s)) = [] →
   t ∈ splitEncodingHeader (Header_Get (w_Header (w s)) "Accept-Encoding") →
   t ∈ splitEncodingHeader (Header_Get (w_Header (w s1)) "Accept-Encoding")).
Proof.
  intros HList Hclean.
  destruct (Decode_handler_served cfg next s)
    as [Hp' | evs s' _ Hst | pre s' ev s1' e _ Hst Hstep]; simpl;
    intros Hin Hp; [congruence| |].
  - destruct (decode_steps_quiet _ _ _ _ Hst) as (_ & Hq & _ & _).
    unfold next_calls in Hin, Hq. rewrite omap_app, Hq in Hin. simpl in Hin.
    apply list_elem_of_singleton in Hin. subst s1.
    assert (Header_Get (w_Header (w (after_negotiation cfg s'))) "Accept-Encoding"
            = negotiated cfg s') as ->.
    { unfold after_negotiation, Header_Get, Header_Set. simpl.
      by rewrite lookup_insert_eq. }
    split.
    + intros Ht. apply negotiated_tokens; [done | done |]. by left.
    + intros Hcalls Ht. rewrite called_decoders_app in Hcalls.
      apply app_eq_nil in Hcalls as [Hc _].
      destruct (decode_steps_builtin_frame _ _ _ _ Hst Hc) as (Hw & _ & _).
      apply negotiated_tokens; [done | done |]. right. by rewrite Hw.
  - exfalso. destruct (decode_steps_quiet _ _ _ _ Hst) as (_ & Hq & _ & _).
    destruct (decode_step_quiet _ _ _ _ _ Hstep) as (_ & Hq' & _).
    unfold next_calls in Hin, Hq, Hq'. rewrite omap_app, Hq in Hin. simpl in *.
    unfold fail_call in Hin.
    destruct ev; simplify_eq/=; destruct (errHandler cfg); simpl in Hin;
      by apply elem_of_nil in Hin.
Qed.

End Handler.

Lemma served_by_exactly_one_witness :
  let cfg := @Decode_config toy [] in
  let σ := serve (Decode_handler cfg toy_next) (toy_st ∅ "POST" ["gzip"] "test") in
  (∃ s1, next_calls (log σ) = [s1] ∧ errHandler_calls (log σ) = [] ∧
         st σ = toy_next s1) ∨
  (∃ s1 e, next_calls (log σ) = [] ∧ errHandler_calls (log σ) = [(s1, e)] ∧
           st σ = DefaultErrorHandler s1 e).
Proof.
  apply (@served_by_exactly_one toy (Decode_config []) DefaultErrorHandler).
  reflexivity.
Defined.

Lemma builtin_steps_frame_witness :
  let cfg := @Decode_config toy [WithDecoder [toy_suffix_decoder "custom" "-custom"]] in
  let s := toy_st {[ "X-Trace" := ["1"] ]} "POST" ["gzip, zstd"] "ZGtest" in
  let σ := serve (Decode_handler cfg toy_next) s in
  (∀ s1, s1 ∈ next_calls (log σ) →
     Method (r s1) = Method (r s) ∧ Header (r s1) = Header (r s) ∧
     w_Code (w s1) = w_Code (w s) ∧ w_Written (w s1) = w_Written (w s) ∧
     ∀ k, k ≠ "Accept-Encoding" → w_Header (w s1) !! k = w_Header (w s) !! k) ∧
  (∀ s1 e, (s1, e) ∈ errHandler_calls (log σ) →
     w s1 = w s ∧ Method (r s1) = Method (r s) ∧ Header (r s1) = Header (r s)).
Proof.
  apply (@builtin_steps_frame toy
           (Decode_config [WithDecoder [toy_suffix_decoder "custom" "-custom"]])
           toy_next (toy_st {[ "X-Trace" := ["1"] ]} "POST" ["gzip, zstd"] "ZGtest")).
  vm_compute. reflexivity.
Defined.

Lemma calls_follow_reversed_tokens_witness :
  let cfg := @Decode_config toy [WithDecoder [toy_suffix_decoder "custom" "-a";
                                               toy_suffix_decoder "other" "-o";
                                               toy_suffix_decoder "custom" "-b"]] in
  let s := toy_st ∅ "POST" ["custom, gzip, other, zstd"] "ZGtest" in
  let σ := serve (Decode_handler cfg toy_next) s in
  codec_calls (log σ) = [Zstd; Gzip] ∧
  called_decoders (log σ) = [1; 0; 2] ∧
  w_Written (w (st σ)) = "test-o-a-b".
Proof.
  destruct (@calls_follow_reversed_tokens toy
              (Decode_config [WithDecoder [toy_suffix_decoder "custom" "-a";
                                           toy_suffix_decoder "other" "-o";
                                           toy_suffix_decoder "custom" "-b"]])
              toy_next (toy_st ∅ "POST" ["custom, gzip, other, zstd"] "ZGtest")
              eq_refl) as (_ & _ & Hall).
  destruct Hall as [Hc Hd]; [by vm_compute|].
  split_and!; [exact Hc | exact Hd | reflexivity].
Defined.

Lemma plain_handler_agrees_witness :
  let cfg := @Decode_config toy [] in
  let s := toy_st ∅ "POST" ["gzip"] "test" in
  serve (Decode_handler_plain cfg toy_next) s = serve (Decode_handler cfg toy_next) s.
Proof.
  apply (proj1 (proj2 (@plain_handler_agrees toy (Decode_config []) toy_next
                         (toy_st ∅ "POST" ["gzip"] "test")))).
  reflexivity.
Defined.

Lemma Decode_never_calls_nil_witness :
  PanicNilFunc ∉ log (serve (@Decode toy [@WithErrorHandler toy None; @WithDOptions toy [tt]] toy_next)
                        (toy_st ∅ "POST" ["gzip"] "test")).
Proof.
  apply (@Decode_never_calls_nil toy). repeat constructor.
Defined.

Lemma Decode_config_last_wins_witness :
  decoders (@Decode_config toy
              ([WithDecoder [toy_suffix_decoder "first" "-1"]] ++
               WithDecoder [toy_suffix_decoder "second" "-2"] ::
               [@WithErrorHandler toy None; @WithDOptions toy [tt]]))
  = [toy_suffix_decoder "second" "-2"].
Proof.
  apply (proj1 (@Decode_config_last_wins toy
                  [WithDecoder [toy_suffix_decoder "first" "-1"]]
                  [@WithErrorHandler toy None; @WithDOptions toy [tt]])).
  repeat constructor.
Defined.

Lemma default_policy_bad_request_witness :
  let s := toy_st ∅ "POST" ["gzip"] "test" in
  let σ := serve (@Decode toy [@WithDOptions toy [tt]] toy_next) s in
  w_Code (w (st σ)) = Some 400 ∧
  w_Written (w (st σ)) = "gzip: invalid header" +:+ String "010"%char "" ∧
  r (st σ) = r s ∧
  next_calls (log σ) = [].
Proof.
  apply (@default_policy_bad_request toy [@WithDOptions toy [tt]] toy_next
           (toy_st ∅ "POST" ["gzip"] "test")
           (toy_st ∅ "POST" ["gzip"] "test") "gzip: invalid header").
  - repeat constructor.
  - apply list_elem_of_In. vm_compute. left. reflexivity.
  - reflexivity.
Defined.

Lemma br_request_reaches_next_witness :
  let s := toy_st ∅ "POST" ["br, identity, br"] "not brotli" in
  let σ := serve (Decode_handler (@Decode_config toy []) toy_next) s in
  errHandler_calls (log σ) = [] ∧
  ∃ s1, next_calls (log σ) = [s1] ∧
        Body (r s1) = Nat.iter 2 toy_brotli_NewReader (inr "not brotli").
Proof.
  apply (@br_request_reaches_next toy (Decode_config []) toy_next
           (toy_st ∅ "POST" ["br, identity, br"] "not brotli")).
  - reflexivity.
  - change (Forall (fun v => v = "br" ∨ skipped (@Decode_config toy []) v)
              ["br"; "identity"; "br"]).
    constructor; [by left|].
    constructor; [right; right; by left|].
    constructor; [by left | constructor].
Defined.

Lemma Accept_Encoding_covers_witness :
  let cfg := @Decode_config toy [WithDecoder [toy_suffix_decoder "custom" "-custom"]] in
  let hdr : gmap string (list string) := {[ "Accept-Encoding" := ["deflate"] ]} in
  let s := toy_st hdr "POST" ["gzip"] "Gtest" in
  let s1 := after_negotiation cfg (@set_Body toy (inr "test") s) in
  "custom" ∈ splitEncodingHeader (Header_Get (w_Header (w s1)) "Accept-Encoding").
Proof.
  refine (proj1 (@Accept_Encoding_covers toy
                   (Decode_config [WithDecoder [toy_suffix_decoder "custom" "-custom"]])
                   toy_next
                   (toy_st {[ "Accept-Encoding" := ["deflate"] ]} "POST" ["gzip"] "Gtest")
                   _ "custom" _ _ _ _) _).
  - intros X. reflexivity.
  - repeat constructor; intros Hin; simpl in Hin;
      repeat (apply elem_of_cons in Hin as [?|Hin]; [discriminate|]);
      by apply elem_of_nil in Hin.
  - apply list_elem_of_In. vm_compute. left. reflexivity.
  - reflexivity.
  - simpl. rewrite !elem_of_cons. tauto.
Defined.
